(** * CoolBox frame composition algebra: [coolbox/core/frame/base.py]

    A shallow embedding of [FrameBase] and of its two operators
    ([__add__], written [combine] in the specification, and [__mul__],
    written [scale]) together with [fetch_data].

    Python objects are mutable and passed by reference, so the embedding
    works over an explicit object store: a Frame is an address, its
    [properties] and [tracks] attributes are addresses of mapping objects,
    and the tracks held by a mapping are addresses of Track objects.  Every
    method is a computation in a small state-and-exception monad over that
    store. *)

From stdpp Require Import gmap strings list fin_maps pretty.

Open Scope string_scope.
Open Scope list_scope.

(** ** Values *)

Definition loc := nat.

(** Scalar property values ([Color('#66ccff')], [min_value = -10], ...). *)
Inductive scalar :=
| SNone
| SBool (b : bool)
| SInt (z : Z)
| SStr (s : string).

Global Instance scalar_eq_dec : EqDecision scalar.
Proof. solve_decision. Defined.

(** [coolbox.utilities.GenomeRange]: only the shape is needed here. *)
Record GenomeRange := mkGenomeRange {
  chrom : string;
  start : Z;
  end_ : Z
}.

(** What a track's fetch capability returns: a sequence of opaque records. *)
Definition records := list scalar.

(** ** Objects *)

(** Modelled from the spec: the [tracks] property is abstract in
    [FrameBase] and no concrete Frame class is in [base.py]; the Frame of the
    data model holds an ordered mapping name -> Track, kept here as a
    reference to a mapping object.  The two other attributes are those
    [FrameBase.__init__] sets: [properties] is the dictionary it is handed,
    stored as is ([self.properties = properties_dict]), hence a reference
    too, and [current_range] is a [GenomeRange] or [None]. *)
Record Frame := mkFrame {
  f_properties : loc;
  f_tracks : loc;
  current_range : option GenomeRange
}.

(** Modelled from the spec: the Track class ([coolbox.core.track.base]) is
    not in [base.py].  A Track has a properties mapping, an ordered
    list of attached coverages (held by reference, a Coverage is shared and
    not owned) and an optional data-fetch capability. *)
Record Track := mkTrack {
  t_properties : gmap string scalar;
  t_coverages : list loc;
  t_fetch_data : option (GenomeRange → records)
}.

(** Modelled from the spec: the Browser class ([coolbox.core.browser]) is
    not in [base.py].  It is the terminal composite built by [Browser(frame,
    reference_genome=..., widgets_box=...)], opaque beyond the Frame it
    wraps, the reference genome and the widgets-box type. *)
Record Browser := mkBrowser {
  b_frame : loc;
  reference_genome : string;
  widgets_box : string
}.

(** ** The object store

    One finite map per class of object.  [h_fetch_log] records the calls
    made to the external fetch capability of tracks, oldest first. *)
Record heap := mkHeap {
  h_frames : gmap loc Frame;
  h_dicts : gmap loc (gmap string scalar);
  h_odicts : gmap loc (list (string * loc));
  h_tracks : gmap loc Track;
  h_fetch_log : list (loc * GenomeRange)
}.

Definition set_frames (f : gmap loc Frame → gmap loc Frame) (h : heap) : heap :=
  mkHeap (f (h_frames h)) (h_dicts h) (h_odicts h) (h_tracks h) (h_fetch_log h).
Definition set_dicts (f : gmap loc (gmap string scalar) → gmap loc (gmap string scalar))
    (h : heap) : heap :=
  mkHeap (h_frames h) (f (h_dicts h)) (h_odicts h) (h_tracks h) (h_fetch_log h).
Definition set_odicts (f : gmap loc (list (string * loc)) → gmap loc (list (string * loc)))
    (h : heap) : heap :=
  mkHeap (h_frames h) (h_dicts h) (f (h_odicts h)) (h_tracks h) (h_fetch_log h).
Definition set_tracks (f : gmap loc Track → gmap loc Track) (h : heap) : heap :=
  mkHeap (h_frames h) (h_dicts h) (h_odicts h) (f (h_tracks h)) (h_fetch_log h).
Definition log_fetch (t : loc) (r : GenomeRange) (h : heap) : heap :=
  mkHeap (h_frames h) (h_dicts h) (h_odicts h) (h_tracks h) (h_fetch_log h ++ [(t, r)]).

(** ** Exceptions and the monad *)

Inductive exn :=
| TypeError (msg : string)
| RuntimeError (msg : string)
| AssertionError (msg : string)
| ParseError (text : string).

(** [Stuck] is a reference to an object that is not in the store: it has no
    Python counterpart and is excluded by the well-formedness hypotheses of
    the theorems. *)
Inductive outcome (A : Type) :=
| Return (a : A)
| Raise (e : exn)
| Stuck.
Arguments Return {A} a.
Arguments Raise {A} e.
Arguments Stuck {A}.

Definition M (A : Type) : Type := heap → heap * outcome A.

Global Instance M_ret : MRet M := λ A a h, (h, Return a).
Global Instance M_bind : MBind M := λ A B k m h,
  match m h with
  | (h', Return a) => k a h'
  | (h', Raise e) => (h', Raise e)
  | (h', Stuck) => (h', Stuck)
  end.
Definition raise {A} (e : exn) : M A := λ h, (h, Raise e).
Definition stuck {A} : M A := λ h, (h, Stuck).

(** Reads from the store. *)
Definition read {A} (sel : heap → option A) : M A :=
  λ h, match sel h with Some a => (h, Return a) | None => (h, Stuck) end.

Definition frame_at (self : loc) : M Frame := read (λ h, h_frames h !! self).
Definition dict_at (d : loc) : M (gmap string scalar) := read (λ h, h_dicts h !! d).
Definition odict_at (d : loc) : M (list (string * loc)) := read (λ h, h_odicts h !! d).
Definition track_at (t : loc) : M Track := read (λ h, h_tracks h !! t).

Definition modify (f : heap → heap) : M unit := λ h, (f h, Return tt).

(** Writes to an object that exists. *)
Definition dict_store (d : loc) (p : gmap string scalar) : M unit :=
  _ ← dict_at d; modify (set_dicts <[d := p]>).
Definition odict_store (d : loc) (od : list (string * loc)) : M unit :=
  _ ← odict_at d; modify (set_odicts <[d := od]>).
Definition track_store (t : loc) (tr : Track) : M unit :=
  _ ← track_at t; modify (set_tracks <[t := tr]>).

(** ** Attribute access *)

(** [self.properties] and [self.tracks]: the mapping objects themselves. *)
Definition properties (self : loc) : M loc := f ← frame_at self; mret (f_properties f).
Definition tracks (self : loc) : M loc := f ← frame_at self; mret (f_tracks f).

(** The address given to the next Frame object. *)
Definition new_frame_address : M loc := λ h, (h, Return (fresh (dom (h_frames h)))).

(** [copy(self)] from the [copy] module on an instance whose class defines no
    [__copy__]: a new object whose attributes are bound to the very same
    objects as the original's. *)
Definition copy (self : loc) : M loc :=
  f ← frame_at self;
  l ← new_frame_address;
  _ ← modify (set_frames <[l := f]>);
  mret l.

(** [d[key] = value] on the properties dictionary at [d]. *)
Definition dict_setitem (d : loc) (key : string) (value : scalar) : M unit :=
  p ← dict_at d; dict_store d (<[key := value]> p).

(** [d.update(e)]: every item of [e] is written into [d]; the right operand
    wins on a common key ([∪] on [gmap] is left-biased). *)
Definition dict_update (d e : loc) : M unit :=
  q ← dict_at e; p ← dict_at d; dict_store d (q ∪ p).

(** [track.properties[key] = value]. *)
Definition track_setitem (t : loc) (key : string) (value : scalar) : M unit :=
  tr ← track_at t;
  track_store t (mkTrack (<[key := value]> (t_properties tr)) (t_coverages tr) (t_fetch_data tr)).

(** Modelled from the spec: [Track.append_coverage] is not in [base.py]; it
    appends the coverage to the track's [coverages]. *)
Definition append_coverage (t : loc) (cov : loc) : M unit :=
  tr ← track_at t;
  track_store t (mkTrack (t_properties tr) (t_coverages tr ++ [cov]) (t_fetch_data tr)).

(** Modelled from the spec: [Track.pile_coverages(coverages, pos='top')] is
    not in [base.py]; position top adds the block last in draw order. *)
Definition pile_coverages (t : loc) (covs : list loc) : M unit :=
  tr ← track_at t;
  track_store t (mkTrack (t_properties tr) (t_coverages tr ++ covs) (t_fetch_data tr)).

(** ** Ordered mappings *)

(** [len(d)], [list(d.values())[-1]] on the ordered mapping at [d]. *)
Definition len (d : loc) : M nat := od ← odict_at d; mret (length od).
Definition last_value (d : loc) : M loc :=
  od ← odict_at d;
  match last od with Some (_, v) => mret v | None => stuck end.

(** [for name, track in d.items(): body] over the live view of the
    [OrderedDict] at [d].  The iterator is positioned on the items the
    mapping had when the loop began; whenever it is asked for an item that
    remains, it first checks that the mapping was not modified in between
    (here: that it still has the items it began with) and raises
    [RuntimeError] if it was.  [acc] threads the local variables the body
    assigns. *)
Fixpoint for_items_from {A} (d : loc) (began rest : list (string * loc))
    (body : string * loc → A → M A) (acc : A) : M A :=
  match rest with
  | [] => mret acc
  | item :: rest' =>
      now ← odict_at d;
      if decide (now = began)
      then acc' ← body item acc; for_items_from d began rest' body acc'
      else raise (RuntimeError "OrderedDict mutated during iteration")
  end.

Definition for_items {A} (d : loc) (body : string * loc → A → M A) (acc : A) : M A :=
  began ← odict_at d; for_items_from d began began body acc.

(** [for track in d.values(): body]. *)
Definition for_values (d : loc) (body : loc → M unit) : M unit :=
  for_items d (λ item _, body item.2) tt.

(** [od.update([(name, data)])] on a local [OrderedDict]: a known key keeps
    its position and takes the new value, a new key goes to the end. *)
Fixpoint od_update {V} (od : list (string * V)) (name : string) (data : V)
    : list (string * V) :=
  match od with
  | [] => [(name, data)]
  | (k, v) :: od' =>
      if decide (k = name) then (k, data) :: od' else (k, v) :: od_update od' name data
  end.

(** ** Adding a track *)

(** Modelled from the spec: [add_track] is abstract in [FrameBase] and its
    implementation is not in [base.py].  Called with a track and no name, it
    generates a unique name of the form track_N, N increasing, and
    inserts the track at the end of the ordered track mapping. *)
Definition track_name (n : nat) : string := "track_" +:+ pretty n.

Fixpoint fresh_name_from (fuel n : nat) (names : list string) : string :=
  match fuel with
  | 0 => track_name n
  | S fuel' =>
      if decide (track_name n ∈ names)
      then fresh_name_from fuel' (S n) names
      else track_name n
  end.

Definition fresh_name (od : list (string * loc)) : string :=
  fresh_name_from (length od) (length od) od.*1.

Definition add_track (self : loc) (track : loc) : M unit :=
  ts ← tracks self;
  od ← odict_at ts;
  odict_store ts (od ++ [(fresh_name od, track)]).

(** ** Right operands and their classes *)

Inductive operand :=
| Track_ (track : loc)
| Frame_ (frame : loc)
| FrameFeature_ (key : string) (value : scalar)
| Feature_ (key : string) (value : scalar)
| Coverage_ (cov : loc)
| CoverageStack_ (coverages : list loc)
| WidgetsPanel_ (ref : string) (type : string)
| Other_ (type_name : string).

Inductive class :=
| CTrack | CFrameBase | CFrameFeature | CFeature
| CCoverage | CCoverageStack | CWidgetsPanel.

(** [isinstance(other, cls)].  The classes are imported from other modules;
    [FrameFeature] is taken to derive from [Feature], the reason for
    [__add__] to test it before [Feature], and the other classes to be
    unrelated. *)
Definition isinstance (other : operand) (cls : class) : bool :=
  match other, cls with
  | Track_ _, CTrack => true
  | Frame_ _, CFrameBase => true
  | FrameFeature_ _ _, CFrameFeature => true
  | FrameFeature_ _ _, CFeature => true
  | Feature_ _ _, CFeature => true
  | Coverage_ _, CCoverage => true
  | CoverageStack_ _, CCoverageStack => true
  | WidgetsPanel_ _ _, CWidgetsPanel => true
  | _, _ => false
  end.

(** Attributes of the right operand. *)
Definition as_track (other : operand) : M loc :=
  match other with Track_ t => mret t | _ => stuck end.
Definition as_frame (other : operand) : M loc :=
  match other with Frame_ f => mret f | _ => stuck end.
Definition as_coverage (other : operand) : M loc :=
  match other with Coverage_ c => mret c | _ => stuck end.
Definition key_of (other : operand) : M string :=
  match other with FrameFeature_ k _ | Feature_ k _ => mret k | _ => stuck end.
Definition value_of (other : operand) : M scalar :=
  match other with FrameFeature_ _ v | Feature_ _ v => mret v | _ => stuck end.
Definition coverages_of (other : operand) : M (list loc) :=
  match other with CoverageStack_ cs => mret cs | _ => stuck end.
Definition ref_of (other : operand) : M string :=
  match other with WidgetsPanel_ r _ => mret r | _ => stuck end.
Definition type_of (other : operand) : M string :=
  match other with WidgetsPanel_ _ t => mret t | _ => stuck end.

(** [str(type(x))], as printed in the doctest of [__add__]. *)
Definition Frame_type : string := "<class 'coolbox.core.frame.Frame'>".
Definition type_repr (other : operand) : string :=
  match other with
  | Track_ _ => "<class 'coolbox.core.track.base.Track'>"
  | Frame_ _ => Frame_type
  | FrameFeature_ _ _ => "<class 'coolbox.core.feature.FrameFeature'>"
  | Feature_ _ _ => "<class 'coolbox.core.feature.Feature'>"
  | Coverage_ _ => "<class 'coolbox.core.coverage.base.Coverage'>"
  | CoverageStack_ _ => "<class 'coolbox.core.coverage.base.CoverageStack'>"
  | WidgetsPanel_ _ _ => "<class 'coolbox.core.browser.WidgetsPanel'>"
  | Other_ n => "<class '" +:+ n +:+ "'>"
  end.

(** [coolbox.utilities.op_err_msg(a, b, op='+')]: the helper is not in
    [base.py]; the text is the one the doctest of [__add__] expects. *)
Definition op_err_msg (a b : string) (op : string) : string :=
  "unsupported operand type(s) for " +:+ op +:+ ": '" +:+ a +:+ "' and '" +:+ b +:+ "'".

(** ** The two operators *)

Inductive composite :=
| AFrame (frame : loc)
| ABrowser (browser : Browser).

(** [FrameBase.__add__], the [combine] of the specification. *)
Definition __add__ (self : loc) (other : operand) : M composite :=
  result ← copy self;
  if isinstance other CTrack then
    track ← as_track other;
    _ ← add_track result track;
    mret (AFrame result)
  else if isinstance other CFrameBase then
    o ← as_frame other;
    ots ← tracks o;
    _ ← for_values ots (λ track, add_track result track);
    rp ← properties result;
    op ← properties o;
    _ ← dict_update rp op;
    mret (AFrame result)
  else if isinstance other CFrameFeature then
    k ← key_of other;
    v ← value_of other;
    rp ← properties result;
    _ ← dict_setitem rp k v;
    mret (AFrame result)
  else if isinstance other CFeature then
    rts ← tracks result;
    n ← len rts;
    _ ← (if decide (n ≠ 0) then
           last ← last_value rts;
           k ← key_of other;
           v ← value_of other;
           track_setitem last k v
         else mret tt);
    mret (AFrame result)
  else if isinstance other CCoverage then
    rts ← tracks result;
    n ← len rts;
    _ ← (if decide (n ≠ 0) then
           last ← last_value rts;
           c ← as_coverage other;
           append_coverage last c
         else mret tt);
    mret (AFrame result)
  else if isinstance other CCoverageStack then
    rts ← tracks result;
    n ← len rts;
    _ ← (if decide (n ≠ 0) then
           last ← last_value rts;
           cs ← coverages_of other;
           pile_coverages last cs
         else mret tt);
    mret (AFrame result)
  else if isinstance other CWidgetsPanel then
    r ← ref_of other;
    t ← type_of other;
    mret (ABrowser (mkBrowser self r t))
  else raise (TypeError (op_err_msg Frame_type (type_repr other) "+")).

(** [FrameBase.add_feature_to_tracks]. *)
Definition add_feature_to_tracks (self : loc) (feature : operand) : M unit :=
  if isinstance feature CFeature then
    ts ← tracks self;
    for_values ts (λ track,
      k ← key_of feature;
      v ← value_of feature;
      track_setitem track k v)
  else raise (AssertionError "feature must a Feature object.").

(** [FrameBase.add_cov_to_tracks]. *)
Definition add_cov_to_tracks (self : loc) (cov : loc) : M unit :=
  ts ← tracks self;
  for_values ts (λ track, append_coverage track cov).

(** [FrameBase.__mul__], the [scale] of the specification. *)
Definition __mul__ (self : loc) (other : operand) : M composite :=
  if isinstance other CCoverage then
    result ← copy self;
    c ← as_coverage other;
    _ ← add_cov_to_tracks result c;
    mret (AFrame result)
  else if isinstance other CFeature then
    result ← copy self;
    _ ← add_feature_to_tracks result other;
    mret (AFrame result)
  else raise (TypeError (op_err_msg Frame_type (type_repr other) "*")).

(** ** Fetching data *)

(** The [genome_range] argument of [fetch_data] when it is given: a range
    literal or a [GenomeRange]. *)
Inductive range_arg :=
| RangeStr (s : string)
| RangeObj (r : GenomeRange).

(** The error of [fetch_data] when no range can be resolved (the
    [MissingRange] of the specification). *)
Definition MissingRange : exn :=
  RuntimeError "Please specify a genome range like: chr1:1000-2000".

(** [track.fetch_data(genome_range)] if the track has the attribute, [[]]
    otherwise; a call to the capability is logged. *)
Definition fetch_or_default (track : loc) (r : GenomeRange) : M records :=
  tr ← track_at track;
  match t_fetch_data tr with
  | Some fetch => _ ← modify (log_fetch track r); mret (fetch r)
  | None => mret []
  end.

Section Ranges.

(** The parser behind [GenomeRange(text)] lives in [coolbox.utilities], not
    in [base.py]: it is a parameter, [None] standing for a literal it
    rejects. *)
Variable parse_region : string → option GenomeRange.

(** [GenomeRange(text)]; a rejected literal is the [ParseError] of the
    specification. *)
Definition GenomeRange_of_string (text : string) : M GenomeRange :=
  match parse_region text with
  | Some r => mret r
  | None => raise (ParseError text)
  end.

(** [FrameBase.goto]. *)
Definition goto (self : loc) (genome_range : range_arg) : M unit :=
  r ← match genome_range with
      | RangeObj r => mret r
      | RangeStr s => GenomeRange_of_string s
      end;
  f ← frame_at self;
  modify (set_frames <[self := mkFrame (f_properties f) (f_tracks f) (Some r)]>).

(** [FrameBase.fetch_data]. *)
Definition fetch_data (self : loc) (genome_range : option range_arg)
    : M (list (string * records)) :=
  genome_range ← match genome_range with
                 | None => f ← frame_at self; mret (RangeObj <$> current_range f)
                 | Some g => mret (Some g)
                 end;
  match genome_range with
  | None => raise MissingRange
  | Some g =>
      r ← match g with
          | RangeStr s => GenomeRange_of_string s
          | RangeObj r => mret r
          end;
      ts ← tracks self;
      for_items ts (λ item tracks_data,
        data ← fetch_or_default item.2 r;
        mret (od_update tracks_data item.1 data)) []
  end.

End Ranges.

(** ** Construction *)

Section Construction.

Variable parse_region : string → option GenomeRange.

(** [FrameBase.__init__(self, properties_dict, **kwargs)] on the object under
    construction at [self]; [genome_range] is the keyword argument of that
    name, [None] when the call has none.  The range is settled first, so a
    literal the parser rejects raises before [self.properties] is bound.
    The [tracks] attribute is the subclass's and is left as it is. *)
Definition __init__ (self : loc) (properties_dict : loc)
    (genome_range : option range_arg) : M unit :=
  current ← match genome_range with
            | Some (RangeObj r) => mret (Some r)
            | Some (RangeStr s) => r ← GenomeRange_of_string parse_region s; mret (Some r)
            | None => mret None
            end;
  f ← frame_at self;
  _ ← modify (set_frames <[self := mkFrame (f_properties f) (f_tracks f) current]>);
  f ← frame_at self;
  modify (set_frames <[self := mkFrame properties_dict (f_tracks f) (current_range f)]>).

End Construction.

(** ** Value ranges of the signal tracks *)

(** [name in d] and [d[name]] on an ordered mapping. *)
Fixpoint od_get {V} (od : list (string * V)) (name : string) : option V :=
  match od with
  | [] => None
  | (k, v) :: od' => if decide (k = name) then Some v else od_get od' name
  end.

Section MinMax.

(** [isinstance(track, BedGraph)] and [isinstance(track, BigWig)]: the two
    classes come from [coolbox.core.track], not from [base.py], and the
    class of the Track object at an address is a parameter. *)
Variable is_BedGraph is_BigWig : loc → bool.

(** [FrameBase.set_tracks_min_max(min_, max_, name=None)].  The method
    returns nothing; the value here is what it hands to [log.warning]. *)
Definition set_tracks_min_max (self : loc) (min_ max_ : scalar) (name : option string)
    : M (list string) :=
  match name with
  | None =>
      ts ← tracks self;
      _ ← for_values ts (λ track,
            if is_BedGraph track || is_BigWig track then
              _ ← track_setitem track "min_value" min_;
              track_setitem track "max_value" max_
            else mret tt);
      mret []
  | Some name =>
      ts ← tracks self;
      od ← odict_at ts;
      match od_get od name with
      | None => mret ["Track {name} not in frame"]
      | Some track =>
          tr ← track_at track;
          if decide (is_Some (t_properties tr !! "min_value")) then
            _ ← track_setitem track "min_value" min_;
            _ ← track_setitem track "max_value" max_;
            mret []
          else mret []
      end
  end.

End MinMax.

(** * Vocabulary of the statements *)

(** The Frame object [copy] creates. *)
Definition new_frame (h : heap) : loc := fresh (dom (h_frames h)).
Definition copied (f : Frame) (h : heap) : heap := set_frames <[new_frame h := f]> h.

(** What [track.properties[k] = v] and [track.append_coverage(c)] do to the
    Track object. *)
Definition with_property (k : string) (v : scalar) (tr : Track) : Track :=
  mkTrack (<[k := v]> (t_properties tr)) (t_coverages tr) (t_fetch_data tr).
Definition with_coverages (cs : list loc) (tr : Track) : Track :=
  mkTrack (t_properties tr) (t_coverages tr ++ cs) (t_fetch_data tr).

(** The loops of [add_feature_to_tracks] and [add_cov_to_tracks] update the
    Track object of each item in turn. *)
Definition alter_tracks (g : Track → Track) (od : list (string * loc)) (h : heap) : heap :=
  foldl (λ h item, set_tracks (alter g item.2) h) h od.

(** How many times a Track object occurs among the values of a mapping. *)
Definition occurrences (t : loc) (od : list (string * loc)) : nat :=
  length (filter (λ item, item.2 = t) od).

(** The fetch capability of the Track object at [t], if it has one. *)
Definition capability (h : heap) (t : loc) : option (GenomeRange → records) :=
  tr ← h_tracks h !! t; t_fetch_data tr.

(** What [fetch_data] is to report for the track at [t]. *)
Definition data_for (h : heap) (r : GenomeRange) (t : loc) : records :=
  match capability h t with Some fetch => fetch r | None => [] end.

(** The calls [fetch_data] is to make: one per entry whose track has the
    capability, in the order of the mapping. *)
Definition calls_for (h : heap) (r : GenomeRange) (od : list (string * loc))
    : list (loc * GenomeRange) :=
  omap (λ item, match capability h item.2 with
                | Some _ => Some (item.2, r)
                | None => None
                end) od.

(** The range [fetch_data] works with: the argument if given (a literal is
    parsed), the Frame's [current_range] otherwise. *)
Definition resolved (parse_region : string → option GenomeRange)
    (current : option GenomeRange) (genome_range : option range_arg)
    : option GenomeRange :=
  match genome_range with
  | None => current
  | Some (RangeObj r) => Some r
  | Some (RangeStr s) => parse_region s
  end.

(** The mapping after [add_track] was called for each of [ts] in turn. *)
Fixpoint append_tracks (od : list (string * loc)) (ts : list loc) : list (string * loc) :=
  match ts with
  | [] => od
  | t :: ts' => append_tracks (od ++ [(fresh_name od, t)]) ts'
  end.

(** The store after the loop of the Frame branch of [__add__]. *)
Definition tracks_added (d : loc) (od : list (string * loc)) (h : heap) : heap :=
  foldl (λ h item,
           set_odicts (alter (λ od, od ++ [(fresh_name od, item.2)]) d) h) h od.

(** A Frame at address 1 with the property width = 40 and no track, and a
    track at address 5. *)
Definition shared_store : heap :=
  mkHeap {[ 1 := mkFrame 1 1 None ]} {[ 1 := {[ "width" := SInt 40 ]} ]}
         {[ 1 := [] ]} {[ 5 := mkTrack ∅ [] None ]} [].

(** Tracks A (no fetch capability) and B (fetching one record r1). *)
Definition fetch_store : heap :=
  mkHeap {[ 1 := mkFrame 1 1 None ]} {[ 1 := ∅ ]}
         {[ 1 := [("A", 1); ("B", 2)] ]}
         {[ 1 := mkTrack ∅ [] None;
            2 := mkTrack ∅ [] (Some (λ _, [SStr "r1"])) ]} [].

Definition chr1_1000_2000 : GenomeRange := mkGenomeRange "chr1" 1000 2000.

(** [f = XAxis() + BigWig(...)]: two tracks, and a spare Track object at
    address 3. *)
Definition two_tracks : heap :=
  mkHeap {[ 1 := mkFrame 1 1 None ]} {[ 1 := ∅ ]}
         {[ 1 := [("XAxis.1", 1); ("BigWig.1", 2)] ]}
         {[ 1 := mkTrack ∅ [] None; 2 := mkTrack ∅ [] None; 3 := mkTrack ∅ [] None ]} [].

(** The coverages and the color of the track at [t] once [m] has run. *)
Definition coverages_after (m : M composite) (h : heap) (t : loc) : option (list loc) :=
  t_coverages <$> h_tracks (m h).1 !! t.
Definition color_after (m : M composite) (h : heap) (t : loc) : option scalar :=
  tr ← h_tracks (m h).1 !! t; t_properties tr !! "color".

(** [m] run from any store ends, whatever its outcome, in a store related
    to the first by [R]; [m], when it returns, returns a value with [P]. *)
Definition respects {A} (R : heap → heap → Prop) (m : M A) : Prop :=
  ∀ h h' o, m h = (h', o) → R h h'.
Definition yields {A} (P : A → Prop) (m : M A) : Prop :=
  ∀ h h' a, m h = (h', Return a) → P a.

(** A component of the store is as it was; every Frame object there was is
    as it was; the log of fetch calls has at most grown. *)
Definition keeps {B} (proj : heap → B) (h h' : heap) : Prop := proj h' = proj h.
Definition frames_kept (h h' : heap) : Prop :=
  ∀ a fo, h_frames h !! a = Some fo → h_frames h' !! a = Some fo.
Definition log_grows (h h' : heap) : Prop :=
  ∃ calls, h_fetch_log h' = h_fetch_log h ++ calls.

(** [(m + other)] and [(m * other)] for a chain [m] that has produced a
    Frame; a Browser on the left is handled by a class that is not in
    [base.py]. *)
Definition then_add (m : M composite) (other : operand) : M composite :=
  c ← m; match c with AFrame frame => __add__ frame other | ABrowser _ => stuck end.
Definition then_mul (m : M composite) (other : operand) : M composite :=
  c ← m; match c with AFrame frame => __mul__ frame other | ABrowser _ => stuck end.

(** The loop of [set_tracks_min_max]: the update of a Track object depends
    on its address. *)
Definition alter_tracks_by (g : loc → Track → Track) (od : list (string * loc))
    (h : heap) : heap :=
  foldl (λ h item, set_tracks (alter (g item.2) item.2) h) h od.

(** What [set_tracks_min_max] writes into a Track object. *)
Definition with_min_max (min_ max_ : scalar) (tr : Track) : Track :=
  with_property "max_value" max_ (with_property "min_value" min_ tr).

(** A Frame with an XAxis (address 1), a BigWig without value range
    (address 2) and a BigWig with one (address 3). *)
Definition signal_store : heap :=
  mkHeap {[ 1 := mkFrame 1 1 None ]} {[ 1 := ∅ ]}
         {[ 1 := [("XAxis.1", 1); ("BigWig.1", 2); ("BigWig.2", 3)] ]}
         {[ 1 := mkTrack ∅ [] None;
            2 := mkTrack ∅ [] None;
            3 := mkTrack {[ "min_value" := SInt 0 ]} [7] None ]} [].

(** [m], when it raises, raises an exception with [P]. *)
Definition raises_only {A} (P : exn → Prop) (m : M A) : Prop :=
  ∀ h h' e, m h = (h', Raise e) → P e.

(** * Reasoning about computations *)

Lemma bind_Return {A B} (m : M A) (k : A → M B) h h' a :
  m h = (h', Return a) → (m ≫= k) h = k a h'.
Proof. intros E. unfold mbind, M_bind. by rewrite E. Qed.


Lemma frame_at_run h self f :
  h_frames h !! self = Some f → frame_at self h = (h, Return f).
Proof. intros E. unfold frame_at, read. by rewrite E. Qed.

Lemma dict_at_run h d p :
  h_dicts h !! d = Some p → dict_at d h = (h, Return p).
Proof. intros E. unfold dict_at, read. by rewrite E. Qed.

Lemma odict_at_run h d od :
  h_odicts h !! d = Some od → odict_at d h = (h, Return od).
Proof. intros E. unfold odict_at, read. by rewrite E. Qed.

Lemma track_at_run h t tr :
  h_tracks h !! t = Some tr → track_at t h = (h, Return tr).
Proof. intros E. unfold track_at, read. by rewrite E. Qed.

Lemma properties_run h self f :
  h_frames h !! self = Some f → properties self h = (h, Return (f_properties f)).
Proof. intros E. unfold properties. by rewrite (bind_Return _ _ _ _ _ (frame_at_run _ _ _ E)). Qed.

Lemma tracks_run h self f :
  h_frames h !! self = Some f → tracks self h = (h, Return (f_tracks f)).
Proof. intros E. unfold tracks. by rewrite (bind_Return _ _ _ _ _ (frame_at_run _ _ _ E)). Qed.

Lemma len_run h d od :
  h_odicts h !! d = Some od → len d h = (h, Return (length od)).
Proof. intros E. unfold len. by rewrite (bind_Return _ _ _ _ _ (odict_at_run _ _ _ E)). Qed.

Lemma last_value_run h d od name t :
  h_odicts h !! d = Some od → last od = Some (name, t) →
  last_value d h = (h, Return t).
Proof.
  intros E El. unfold last_value.
  rewrite (bind_Return _ _ _ _ _ (odict_at_run _ _ _ E)). by rewrite El.
Qed.

Lemma new_frame_fresh h : h_frames h !! new_frame h = None.
Proof. unfold new_frame. apply not_elem_of_dom. apply is_fresh. Qed.

Lemma new_frame_ne h self f : h_frames h !! self = Some f → new_frame h ≠ self.
Proof. intros E Hn. rewrite <- Hn in E. by rewrite new_frame_fresh in E. Qed.

Lemma copy_run h self f :
  h_frames h !! self = Some f → copy self h = (copied f h, Return (new_frame h)).
Proof.
  intros E. unfold copy.
  by rewrite (bind_Return _ _ _ _ _ (frame_at_run _ _ _ E)).
Qed.

Lemma copied_frames_new f h : h_frames (copied f h) !! new_frame h = Some f.
Proof. unfold copied, set_frames; simpl. apply lookup_insert_eq. Qed.

Lemma copied_frames_old f h self g :
  h_frames h !! self = Some g → h_frames (copied f h) !! self = Some g.
Proof.
  intros E. unfold copied, set_frames; simpl.
  rewrite lookup_insert_ne; [done | by eapply new_frame_ne].
Qed.

Lemma dict_store_run h d p q :
  h_dicts h !! d = Some p → dict_store d q h = (set_dicts <[d := q]> h, Return tt).
Proof. intros E. unfold dict_store. by rewrite (bind_Return _ _ _ _ _ (dict_at_run _ _ _ E)). Qed.

Lemma odict_store_run h d od od' :
  h_odicts h !! d = Some od → odict_store d od' h = (set_odicts <[d := od']> h, Return tt).
Proof. intros E. unfold odict_store. by rewrite (bind_Return _ _ _ _ _ (odict_at_run _ _ _ E)). Qed.

Lemma track_store_run h t tr tr' :
  h_tracks h !! t = Some tr → track_store t tr' h = (set_tracks <[t := tr']> h, Return tt).
Proof. intros E. unfold track_store. by rewrite (bind_Return _ _ _ _ _ (track_at_run _ _ _ E)). Qed.

Lemma dict_setitem_run h d p k v :
  h_dicts h !! d = Some p →
  dict_setitem d k v h = (set_dicts <[d := <[k := v]> p]> h, Return tt).
Proof.
  intros E. unfold dict_setitem.
  rewrite (bind_Return _ _ _ _ _ (dict_at_run _ _ _ E)). by eapply dict_store_run.
Qed.

Lemma dict_update_run h d e p q :
  h_dicts h !! d = Some p → h_dicts h !! e = Some q →
  dict_update d e h = (set_dicts <[d := q ∪ p]> h, Return tt).
Proof.
  intros Ed Ee. unfold dict_update.
  rewrite (bind_Return _ _ _ _ _ (dict_at_run _ _ _ Ee)).
  rewrite (bind_Return _ _ _ _ _ (dict_at_run _ _ _ Ed)). by eapply dict_store_run.
Qed.

Lemma track_setitem_run h t tr k v :
  h_tracks h !! t = Some tr →
  track_setitem t k v h = (set_tracks <[t := with_property k v tr]> h, Return tt).
Proof.
  intros E. unfold track_setitem.
  rewrite (bind_Return _ _ _ _ _ (track_at_run _ _ _ E)). by eapply track_store_run.
Qed.

Lemma append_coverage_run h t tr c :
  h_tracks h !! t = Some tr →
  append_coverage t c h = (set_tracks <[t := with_coverages [c] tr]> h, Return tt).
Proof.
  intros E. unfold append_coverage.
  rewrite (bind_Return _ _ _ _ _ (track_at_run _ _ _ E)). by eapply track_store_run.
Qed.

Lemma pile_coverages_run h t tr cs :
  h_tracks h !! t = Some tr →
  pile_coverages t cs h = (set_tracks <[t := with_coverages cs tr]> h, Return tt).
Proof.
  intros E. unfold pile_coverages.
  rewrite (bind_Return _ _ _ _ _ (track_at_run _ _ _ E)). by eapply track_store_run.
Qed.

Lemma add_track_run h self f od t :
  h_frames h !! self = Some f → h_odicts h !! f_tracks f = Some od →
  add_track self t h
  = (set_odicts <[f_tracks f := od ++ [(fresh_name od, t)]]> h, Return tt).
Proof.
  intros Ef Eo. unfold add_track.
  rewrite (bind_Return _ _ _ _ _ (tracks_run _ _ _ Ef)).
  rewrite (bind_Return _ _ _ _ _ (odict_at_run _ _ _ Eo)). by eapply odict_store_run.
Qed.

Lemma insert_as_alter {V} (g : V → V) (m : gmap loc V) t x :
  m !! t = Some x → <[t := g x]> m = alter g t m.
Proof.
  intros E. apply map_eq; intros j. destruct (decide (t = j)) as [<-|Hne].
  - by rewrite lookup_insert_eq, lookup_alter_eq, E.
  - by rewrite lookup_insert_ne, lookup_alter_ne.
Qed.

(** A loop whose body keeps the mapping it walks as it was runs the body on
    every item, in order: [hstep] is the body's effect on the store, [astep]
    its effect on the local variables, [P] what stays true of the store. *)
Lemma for_items_from_run {A} (P : heap → Prop) d began
    (body : string * loc → A → M A)
    (hstep : string * loc → heap → heap) (astep : string * loc → A → A) rest :
  (∀ h, P h → h_odicts h !! d = Some began) →
  (∀ item acc h, item ∈ rest → P h →
     body item acc h = (hstep item h, Return (astep item acc)) ∧ P (hstep item h)) →
  ∀ h acc, P h →
  for_items_from d began rest body acc h
  = (foldl (λ h item, hstep item h) h rest,
     Return (foldl (λ a item, astep item a) acc rest))
  ∧ P (foldl (λ h item, hstep item h) h rest).
Proof.
  intros Hd. induction rest as [|item rest IH]; intros Hbody h acc HP; simpl.
  - done.
  - rewrite (bind_Return _ _ _ _ _ (odict_at_run _ _ _ (Hd _ HP))).
    rewrite decide_True by done.
    destruct (Hbody item acc h) as [Eb HP']; [by left | done |].
    rewrite (bind_Return _ _ _ _ _ Eb).
    apply IH; [|done]. intros item' acc' h' Hin. apply Hbody. by right.
Qed.

Lemma for_items_run {A} (P : heap → Prop) d began
    (body : string * loc → A → M A)
    (hstep : string * loc → heap → heap) (astep : string * loc → A → A) :
  (∀ h, P h → h_odicts h !! d = Some began) →
  (∀ item acc h, item ∈ began → P h →
     body item acc h = (hstep item h, Return (astep item acc)) ∧ P (hstep item h)) →
  ∀ h acc, P h →
  for_items d body acc h
  = (foldl (λ h item, hstep item h) h began,
     Return (foldl (λ a item, astep item a) acc began))
  ∧ P (foldl (λ h item, hstep item h) h began).
Proof.
  intros Hd Hbody h acc HP. unfold for_items.
  rewrite (bind_Return _ _ _ _ _ (odict_at_run _ _ _ (Hd _ HP))).
  by apply for_items_from_run.
Qed.

(** A loop over an empty mapping does nothing. *)
Lemma for_values_nil h d body :
  h_odicts h !! d = Some [] → for_values d body h = (h, Return tt).
Proof.
  intros E. unfold for_values, for_items.
  by rewrite (bind_Return _ _ _ _ _ (odict_at_run _ _ _ E)).
Qed.

Ltac run_with L := rewrite (bind_Return _ _ _ _ _ L); cbn beta.

Lemma mret_run {A} h (a : A) : (mret a : M A) h = (h, Return a).
Proof. done. Qed.

Lemma add_feature_to_tracks_nil h self f k v :
  h_frames h !! self = Some f → h_odicts h !! f_tracks f = Some [] →
  add_feature_to_tracks self (Feature_ k v) h = (h, Return tt).
Proof.
  intros Hf Ho. unfold add_feature_to_tracks; simpl.
  run_with (tracks_run _ _ _ Hf). by apply for_values_nil.
Qed.

Lemma add_cov_to_tracks_nil h self f c :
  h_frames h !! self = Some f → h_odicts h !! f_tracks f = Some [] →
  add_cov_to_tracks self c h = (h, Return tt).
Proof.
  intros Hf Ho. unfold add_cov_to_tracks.
  run_with (tracks_run _ _ _ Hf). by apply for_values_nil.
Qed.

(** * The operators on a Frame without tracks *)

(** C4 — [combine] of a Frame without tracks with a Feature, a Coverage or
    a CoverageStack raises nothing and returns a Frame (the copy made on
    entry) whose track mapping is still empty; no mapping of properties and
    no track in the store is changed. *)
Theorem add_zero_tracks_noop h L f other :
  h_frames h !! L = Some f →
  h_odicts h !! f_tracks f = Some [] →
  (∃ k v, other = Feature_ k v) ∨ (∃ c, other = Coverage_ c)
    ∨ (∃ cs, other = CoverageStack_ cs) →
  ∃ h' result,
    __add__ L other h = (h', Return (AFrame result))
    ∧ h_frames h' !! result = Some f
    ∧ h_odicts h' !! f_tracks f = Some []
    ∧ h_dicts h' = h_dicts h
    ∧ h_odicts h' = h_odicts h
    ∧ h_tracks h' = h_tracks h
    ∧ h_frames h' !! L = Some f.
Proof.
  intros Hf Ho Hother. exists (copied f h), (new_frame h).
  assert (Hnew : h_frames (copied f h) !! new_frame h = Some f)
    by apply copied_frames_new.
  assert (Ho' : h_odicts (copied f h) !! f_tracks f = Some []) by done.
  split; [|by repeat split; eauto using copied_frames_old].
  unfold __add__. run_with (copy_run _ _ _ Hf).
  destruct Hother as [(k & v & ->)|[(c & ->)|(cs & ->)]]; simpl;
    run_with (tracks_run _ _ _ Hnew); run_with (len_run _ _ _ Ho'); done.
Qed.

Lemma add_zero_tracks_noop_witness :
  let h := mkHeap {[ 1 := mkFrame 1 1 None ]} {[ 1 := {[ "width" := SInt 40 ]} ]}
                  {[ 1 := [] ]} ∅ [] in
  ∃ h' result,
    __add__ 1 (Feature_ "color" (SStr "#66ccff")) h = (h', Return (AFrame result))
    ∧ h_frames h' !! result = Some (mkFrame 1 1 None)
    ∧ h_odicts h' !! 1 = Some []
    ∧ h_dicts h' = h_dicts h
    ∧ h_odicts h' = h_odicts h
    ∧ h_tracks h' = h_tracks h
    ∧ h_frames h' !! 1 = Some (mkFrame 1 1 None).
Proof.
  intros h.
  apply (add_zero_tracks_noop h 1 (mkFrame 1 1 None) (Feature_ "color" (SStr "#66ccff")));
    [reflexivity | reflexivity | left; by eexists _, _].
Defined.

(** C10 — [scale] of a Frame without tracks with a Feature or a Coverage
    raises nothing and returns a Frame (a copy) whose track mapping is still
    empty; nothing else in the store is changed. *)
Theorem mul_zero_tracks_noop h L f other :
  h_frames h !! L = Some f →
  h_odicts h !! f_tracks f = Some [] →
  (∃ k v, other = Feature_ k v) ∨ (∃ c, other = Coverage_ c) →
  ∃ h' result,
    __mul__ L other h = (h', Return (AFrame result))
    ∧ h_frames h' !! result = Some f
    ∧ h_odicts h' !! f_tracks f = Some []
    ∧ h_dicts h' = h_dicts h
    ∧ h_odicts h' = h_odicts h
    ∧ h_tracks h' = h_tracks h.
Proof.
  intros Hf Ho Hother. exists (copied f h), (new_frame h).
  assert (Hnew : h_frames (copied f h) !! new_frame h = Some f)
    by apply copied_frames_new.
  assert (Ho' : h_odicts (copied f h) !! f_tracks f = Some []) by done.
  split; [|by repeat split].
  unfold __mul__.
  destruct Hother as [(k & v & ->)|(c & ->)]; simpl;
    run_with (copy_run _ _ _ Hf).
  - by run_with (add_feature_to_tracks_nil _ _ _ k v Hnew Ho').
  - run_with (mret_run (copied f h) c).
    by run_with (add_cov_to_tracks_nil _ _ _ c Hnew Ho').
Qed.

Lemma mul_zero_tracks_noop_witness :
  let h := mkHeap {[ 1 := mkFrame 1 1 None ]} {[ 1 := ∅ ]} {[ 1 := [] ]} ∅ [] in
  ∃ h' result,
    __mul__ 1 (Coverage_ 7) h = (h', Return (AFrame result))
    ∧ h_frames h' !! result = Some (mkFrame 1 1 None)
    ∧ h_odicts h' !! 1 = Some []
    ∧ h_dicts h' = h_dicts h
    ∧ h_odicts h' = h_odicts h
    ∧ h_tracks h' = h_tracks h.
Proof.
  intros h.
  apply (mul_zero_tracks_noop h 1 (mkFrame 1 1 None) (Coverage_ 7));
    [reflexivity | reflexivity | right; by eexists].
Defined.

(** * Operands outside the dispatch tables *)

(** Only an operand of none of the seven classes reaches the last branch of
    [__add__]. *)
Lemma no_class_Other other :
  (∀ cls, isinstance other cls = false) → ∃ n, other = Other_ n.
Proof.
  intros H. destruct other; try by eexists.
  - specialize (H CTrack); done.
  - specialize (H CFrameBase); done.
  - specialize (H CFrameFeature); done.
  - specialize (H CFeature); done.
  - specialize (H CCoverage); done.
  - specialize (H CCoverageStack); done.
  - specialize (H CWidgetsPanel); done.
Qed.

(** C6 — a right operand that is an instance of none of the classes an
    operator dispatches on makes the operator raise [TypeError] with the
    message built from both operand types and the operator; no Frame is
    returned.  [__add__] dispatches on seven classes, [__mul__] on Coverage
    and Feature. *)
Theorem unsupported_operand_raises h L f other :
  h_frames h !! L = Some f →
  ((∀ cls, isinstance other cls = false) →
     ∃ h', __add__ L other h
           = (h', Raise (TypeError (op_err_msg Frame_type (type_repr other) "+"))))
  ∧ (isinstance other CCoverage = false → isinstance other CFeature = false →
     __mul__ L other h
     = (h, Raise (TypeError (op_err_msg Frame_type (type_repr other) "*")))).
Proof.
  intros Hf. split.
  - intros H. destruct (no_class_Other _ H) as [n ->].
    exists (copied f h). unfold __add__. by run_with (copy_run _ _ _ Hf).
  - intros Hc Hfe. unfold __mul__. by rewrite Hc, Hfe.
Qed.

(** [frame + 42] and [frame * 42]. *)
Lemma unsupported_operand_raises_witness :
  let h := mkHeap {[ 1 := mkFrame 1 1 None ]} {[ 1 := ∅ ]} {[ 1 := [] ]} ∅ [] in
  (∃ h', __add__ 1 (Other_ "int") h
         = (h', Raise (TypeError
              "unsupported operand type(s) for +: '<class 'coolbox.core.frame.Frame'>' and '<class 'int'>'")))
  ∧ __mul__ 1 (Other_ "int") h
    = (h, Raise (TypeError
         "unsupported operand type(s) for *: '<class 'coolbox.core.frame.Frame'>' and '<class 'int'>'")).
Proof.
  intros h.
  destruct (unsupported_operand_raises h 1 (mkFrame 1 1 None) (Other_ "int") eq_refl)
    as [Hadd Hmul].
  split.
  - apply Hadd. intros cls. reflexivity.
  - apply Hmul; reflexivity.
Defined.

(** * The terminal operand *)

(** C5 (as amended) — [combine] with a WidgetsPanel returns a Browser, not
    a Frame, built from the left operand itself, the panel's reference
    genome and the panel's widgets-box type.  The copy made on entry is not
    what the Browser holds; no existing object is changed. *)
Theorem add_widgets_panel_browser h L f r t :
  h_frames h !! L = Some f →
  ∃ h',
    __add__ L (WidgetsPanel_ r t) h = (h', Return (ABrowser (mkBrowser L r t)))
    ∧ h_frames h' !! L = Some f
    ∧ h_dicts h' = h_dicts h
    ∧ h_odicts h' = h_odicts h
    ∧ h_tracks h' = h_tracks h.
Proof.
  intros Hf. exists (copied f h).
  split; [|by repeat split; eauto using copied_frames_old].
  unfold __add__. by run_with (copy_run _ _ _ Hf).
Qed.

Lemma add_widgets_panel_browser_witness :
  let h := mkHeap {[ 1 := mkFrame 1 1 None ]} {[ 1 := ∅ ]} {[ 1 := [] ]} ∅ [] in
  ∃ h',
    __add__ 1 (WidgetsPanel_ "hg19" "simple") h
    = (h', Return (ABrowser (mkBrowser 1 "hg19" "simple")))
    ∧ h_frames h' !! 1 = Some (mkFrame 1 1 None)
    ∧ h_dicts h' = h_dicts h
    ∧ h_odicts h' = h_odicts h
    ∧ h_tracks h' = h_tracks h.
Proof.
  intros h.
  apply (add_widgets_panel_browser h 1 (mkFrame 1 1 None) "hg19" "simple").
  reflexivity.
Defined.

(** C5 as stated fails: the Browser does not wrap the copy of the left
    operand that [__add__] makes on entry.  With the Frame at address 1 the
    copy is a new object at another address and the Browser holds
    address 1. *)
Lemma add_widgets_panel_not_the_copy :
  ¬ (∀ h L f r t,
       h_frames h !! L = Some f →
       ∃ h' result b,
         copy L h = (h', Return result)
         ∧ __add__ L (WidgetsPanel_ r t) h = (h', Return (ABrowser b))
         ∧ b_frame b = result).
Proof.
  intros H.
  destruct (H (mkHeap {[ 1 := mkFrame 1 1 None ]} {[ 1 := ∅ ]} {[ 1 := [] ]} ∅ [])
              1 (mkFrame 1 1 None) "hg19" "simple")
    as (h' & result & b & Hcopy & Hadd & Hb); [reflexivity|].
  vm_compute in Hcopy, Hadd.
  injection Hcopy as _ <-. injection Hadd as _ <-. discriminate Hb.
Qed.

(** * A Feature goes to the last track *)

Lemma last_Some_length {A} (l : list A) x : last l = Some x → length l ≠ 0.
Proof. destruct l; [done | simpl; lia]. Qed.

(** C2 — on a Frame with at least one track, [combine] with a Feature sets
    the Feature's key to its value in the properties of the last track of
    the mapping and leaves that track's coverages alone; every other Track
    object, in particular every track of the Frame before the last, keeps
    its properties; the Frame's own properties and track mapping are
    untouched. *)
Theorem add_feature_last_track_only h L f od name lt tr k v :
  h_frames h !! L = Some f →
  h_odicts h !! f_tracks f = Some od →
  last od = Some (name, lt) →
  h_tracks h !! lt = Some tr →
  ∃ h' result tr',
    __add__ L (Feature_ k v) h = (h', Return (AFrame result))
    ∧ h_frames h' !! result = Some f
    ∧ h_tracks h' !! lt = Some tr'
    ∧ t_properties tr' = <[k := v]> (t_properties tr)
    ∧ t_coverages tr' = t_coverages tr
    ∧ (∀ t, t ≠ lt → h_tracks h' !! t = h_tracks h !! t)
    ∧ (∀ i n t, od !! i = Some (n, t) → t ≠ lt →
         t_properties <$> h_tracks h' !! t = t_properties <$> h_tracks h !! t)
    ∧ h_dicts h' = h_dicts h
    ∧ h_odicts h' = h_odicts h.
Proof.
  intros Hf Ho Hl Ht.
  exists (set_tracks <[lt := with_property k v tr]> (copied f h)), (new_frame h),
    (with_property k v tr).
  assert (Hnew : h_frames (copied f h) !! new_frame h = Some f)
    by apply copied_frames_new.
  assert (Ho' : h_odicts (copied f h) !! f_tracks f = Some od) by done.
  assert (Ht' : h_tracks (copied f h) !! lt = Some tr) by done.
  split.
  - unfold __add__. run_with (copy_run _ _ _ Hf). simpl.
    run_with (tracks_run _ _ _ Hnew). run_with (len_run _ _ _ Ho').
    rewrite decide_True by by eapply last_Some_length.
    assert (E : (last_value (f_tracks f) ≫= λ last,
                   k0 ← key_of (Feature_ k v); v0 ← value_of (Feature_ k v);
                   track_setitem last k0 v0) (copied f h)
                = (set_tracks <[lt := with_property k v tr]> (copied f h), Return tt)).
    { run_with (last_value_run _ _ _ _ _ Ho' Hl). simpl.
      run_with (mret_run (copied f h) k). run_with (mret_run (copied f h) v).
      by apply track_setitem_run. }
    by run_with E.
  - simpl. repeat split; try done.
    + apply lookup_insert_eq.
    + intros t Hne. by apply lookup_insert_ne.
    + intros i n t _ Hne. by rewrite lookup_insert_ne.
Qed.

(** The doctest of [__add__]: after [f = XAxis() + BigWig(...)] and
    [f = f + Color('#66ccff')] the first track has no color, the second one
    has. *)
Lemma add_feature_last_track_only_witness :
  let h := mkHeap {[ 1 := mkFrame 1 1 None ]} {[ 1 := ∅ ]}
                  {[ 1 := [("XAxis.1", 1); ("BigWig.1", 2)] ]}
                  {[ 1 := mkTrack ∅ [] None; 2 := mkTrack ∅ [] None ]} [] in
  ∃ h' result tr',
    __add__ 1 (Feature_ "color" (SStr "#66ccff")) h = (h', Return (AFrame result))
    ∧ h_frames h' !! result = Some (mkFrame 1 1 None)
    ∧ h_tracks h' !! 2 = Some tr'
    ∧ t_properties tr' = <["color" := SStr "#66ccff"]> ∅
    ∧ t_coverages tr' = []
    ∧ (∀ t, t ≠ 2 → h_tracks h' !! t = h_tracks h !! t)
    ∧ (∀ i n t, [("XAxis.1", 1); ("BigWig.1", 2)] !! i = Some (n, t) → t ≠ 2 →
         t_properties <$> h_tracks h' !! t = t_properties <$> h_tracks h !! t)
    ∧ h_dicts h' = h_dicts h
    ∧ h_odicts h' = h_odicts h.
Proof.
  intros h.
  apply (add_feature_last_track_only h 1 (mkFrame 1 1 None)
           [("XAxis.1", 1); ("BigWig.1", 2)] "BigWig.1" 2 (mkTrack ∅ [] None)
           "color" (SStr "#66ccff")); reflexivity.
Defined.

(** * Applying an operand to every track *)

Lemma occurrences_pos t od : t ∈ od.*2 → 0 < occurrences t od.
Proof.
  unfold occurrences. induction od as [|[n t'] od IH]; simpl.
  - by intros ?%elem_of_nil.
  - intros [->|Hin]%elem_of_cons.
    + rewrite filter_cons_True by done. simpl. lia.
    + destruct (decide (t' = t)) as [->|Hne].
      * rewrite filter_cons_True by done. simpl. lia.
      * rewrite filter_cons_False by done. auto.
Qed.

Lemma occurrences_zero t od : t ∉ od.*2 → occurrences t od = 0.
Proof.
  unfold occurrences. induction od as [|[n t'] od IH]; simpl; [done|].
  intros Hnot. apply not_elem_of_cons in Hnot as [Hne Hnot].
  rewrite filter_cons_False by (simpl; congruence). auto.
Qed.

Lemma alter_tracks_frames g od h : h_frames (alter_tracks g od h) = h_frames h.
Proof. revert h. induction od as [|item od IH]; intros h; simpl; [done|]. by rewrite IH. Qed.

Lemma alter_tracks_dicts g od h : h_dicts (alter_tracks g od h) = h_dicts h.
Proof. revert h. induction od as [|item od IH]; intros h; simpl; [done|]. by rewrite IH. Qed.

Lemma alter_tracks_odicts g od h : h_odicts (alter_tracks g od h) = h_odicts h.
Proof. revert h. induction od as [|item od IH]; intros h; simpl; [done|]. by rewrite IH. Qed.

Lemma alter_tracks_lookup g od h t :
  h_tracks (alter_tracks g od h) !! t = Nat.iter (occurrences t od) g <$> h_tracks h !! t.
Proof.
  revert h. unfold occurrences.
  induction od as [|[n t'] od IH]; intros h.
  - simpl. by destruct (h_tracks h !! t).
  - change (alter_tracks g ((n, t') :: od) h)
      with (alter_tracks g od (set_tracks (alter g t') h)).
    rewrite IH. simpl.
    destruct (decide (t' = t)) as [->|Hne].
    + rewrite filter_cons_True by done. rewrite lookup_alter_eq.
      destruct (h_tracks h !! t); simpl; [|done].
      f_equal. symmetry. apply Nat.iter_succ_r.
    + rewrite filter_cons_False by done. by rewrite lookup_alter_ne.
Qed.

Lemma for_values_alter_run g (body : loc → M unit) d od h :
  h_odicts h !! d = Some od →
  (∀ t, t ∈ od.*2 → is_Some (h_tracks h !! t)) →
  (∀ t tr h', h_tracks h' !! t = Some tr →
     body t h' = (set_tracks <[t := g tr]> h', Return tt)) →
  for_values d body h = (alter_tracks g od h, Return tt).
Proof.
  intros Hd Hts Hbody. unfold for_values.
  pose (P := λ h' : heap, h_odicts h' = h_odicts h
                          ∧ ∀ t, t ∈ od.*2 → is_Some (h_tracks h' !! t)).
  destruct (for_items_run P d od (λ item (_ : unit), body item.2)
              (λ item h', set_tracks (alter g item.2) h') (λ _ a, a)) with (h := h) (acc := tt)
    as [E _].
  - intros h' [Eo _]. by rewrite Eo.
  - intros [n t] [] h' Hin [Eo Hall]. simpl.
    destruct (Hall t) as [tr Etr]; [by apply (list_elem_of_fmap_2 snd _ (n, t))|].
    rewrite (Hbody _ _ _ Etr). unfold set_tracks at 1 2.
    rewrite (insert_as_alter g _ _ _ Etr).
    split; [done|]. split; [done|].
    intros t0 Hin0. simpl. apply lookup_alter_is_Some. auto.
  - by split.
  - rewrite E. f_equal. f_equal. clear. by induction od.
Qed.

Lemma iter_with_property k v n tr :
  0 < n →
  t_properties (Nat.iter n (with_property k v) tr) = <[k := v]> (t_properties tr)
  ∧ t_coverages (Nat.iter n (with_property k v) tr) = t_coverages tr.
Proof.
  induction n as [|n IH]; [lia|]. intros _. simpl.
  destruct n as [|n]; [done|].
  destruct IH as [-> ->]; [lia|]. by rewrite insert_insert_eq.
Qed.

Lemma iter_with_coverages c n tr :
  t_properties (Nat.iter n (with_coverages [c]) tr) = t_properties tr
  ∧ t_coverages (Nat.iter n (with_coverages [c]) tr) = t_coverages tr ++ replicate n c.
Proof.
  induction n as [|n [IHp IHc]]; simpl.
  - by rewrite app_nil_r.
  - rewrite IHp, IHc. split; [done|].
    rewrite <- (assoc_L (++)). f_equal.
    change [c] with (replicate 1 c). rewrite <- replicate_add.
    by rewrite Nat.add_1_r.
Qed.

Lemma add_feature_to_tracks_run h self f od k v :
  h_frames h !! self = Some f →
  h_odicts h !! f_tracks f = Some od →
  (∀ t, t ∈ od.*2 → is_Some (h_tracks h !! t)) →
  add_feature_to_tracks self (Feature_ k v) h
  = (alter_tracks (with_property k v) od h, Return tt).
Proof.
  intros Hf Ho Hts. unfold add_feature_to_tracks; simpl.
  run_with (tracks_run _ _ _ Hf).
  apply for_values_alter_run; [done..|].
  intros t tr h' Et. simpl.
  run_with (mret_run h' k). run_with (mret_run h' v). by apply track_setitem_run.
Qed.

Lemma add_cov_to_tracks_run h self f od c :
  h_frames h !! self = Some f →
  h_odicts h !! f_tracks f = Some od →
  (∀ t, t ∈ od.*2 → is_Some (h_tracks h !! t)) →
  add_cov_to_tracks self c h = (alter_tracks (with_coverages [c]) od h, Return tt).
Proof.
  intros Hf Ho Hts. unfold add_cov_to_tracks.
  run_with (tracks_run _ _ _ Hf).
  apply for_values_alter_run; [done..|].
  intros t tr h' Et. by apply append_coverage_run.
Qed.

(** C3 — [scale] returns a new Frame object with the attributes of [L] and
    applies the operand to every track of [L]: a Feature's key is set to
    its value in the properties of each of them, a Coverage is appended to
    the coverages of each of them (once per entry of the mapping that holds
    the track).  Tracks outside [L], the track mapping and the properties
    mappings are not changed. *)
Theorem mul_applies_to_every_track h L f od :
  h_frames h !! L = Some f →
  h_odicts h !! f_tracks f = Some od →
  Forall (λ t, is_Some (h_tracks h !! t)) od.*2 →
  (∀ k v, ∃ h' result,
     __mul__ L (Feature_ k v) h = (h', Return (AFrame result))
     ∧ h_frames h !! result = None ∧ h_frames h' !! result = Some f
     ∧ (∀ t tr, t ∈ od.*2 → h_tracks h !! t = Some tr →
          ∃ tr', h_tracks h' !! t = Some tr'
                 ∧ t_properties tr' = <[k := v]> (t_properties tr)
                 ∧ t_coverages tr' = t_coverages tr)
     ∧ (∀ t, t ∉ od.*2 → h_tracks h' !! t = h_tracks h !! t)
     ∧ h_dicts h' = h_dicts h ∧ h_odicts h' = h_odicts h)
  ∧ (∀ c, ∃ h' result,
     __mul__ L (Coverage_ c) h = (h', Return (AFrame result))
     ∧ h_frames h !! result = None ∧ h_frames h' !! result = Some f
     ∧ (∀ t tr, t ∈ od.*2 → h_tracks h !! t = Some tr →
          ∃ tr', h_tracks h' !! t = Some tr'
                 ∧ t_coverages tr' = t_coverages tr ++ replicate (occurrences t od) c
                 ∧ 0 < occurrences t od
                 ∧ t_properties tr' = t_properties tr)
     ∧ (∀ t, t ∉ od.*2 → h_tracks h' !! t = h_tracks h !! t)
     ∧ h_dicts h' = h_dicts h ∧ h_odicts h' = h_odicts h).
Proof.
  intros Hf Ho Hts. rewrite Forall_forall in Hts.
  assert (Hnew : h_frames (copied f h) !! new_frame h = Some f)
    by apply copied_frames_new.
  assert (Ho' : h_odicts (copied f h) !! f_tracks f = Some od) by done.
  assert (Hts' : ∀ t, t ∈ od.*2 → is_Some (h_tracks (copied f h) !! t)) by done.
  split.
  - intros k v.
    exists (alter_tracks (with_property k v) od (copied f h)), (new_frame h).
    split; [|split; [apply new_frame_fresh|]].
    { unfold __mul__; simpl. run_with (copy_run _ _ _ Hf).
      by run_with (add_feature_to_tracks_run _ _ _ _ k v Hnew Ho' Hts'). }
    rewrite alter_tracks_frames, alter_tracks_dicts, alter_tracks_odicts.
    repeat split; try done.
    + intros t tr Hin Et. rewrite alter_tracks_lookup. simpl. rewrite Et. simpl.
      eexists; split; [done|]. by apply iter_with_property, occurrences_pos.
    + intros t Hnot. rewrite alter_tracks_lookup, occurrences_zero by done. simpl.
      by destruct (h_tracks h !! t).
  - intros c.
    exists (alter_tracks (with_coverages [c]) od (copied f h)), (new_frame h).
    split; [|split; [apply new_frame_fresh|]].
    { unfold __mul__; simpl. run_with (copy_run _ _ _ Hf).
      run_with (mret_run (copied f h) c).
      by run_with (add_cov_to_tracks_run _ _ _ _ c Hnew Ho' Hts'). }
    rewrite alter_tracks_frames, alter_tracks_dicts, alter_tracks_odicts.
    repeat split; try done.
    + intros t tr Hin Et. rewrite alter_tracks_lookup. simpl. rewrite Et. simpl.
      eexists; split; [done|].
      destruct (iter_with_coverages c (occurrences t od) tr) as [Ep Ec].
      repeat split; [done | by apply occurrences_pos | done].
    + intros t Hnot. rewrite alter_tracks_lookup, occurrences_zero by done. simpl.
      by destruct (h_tracks h !! t).
Qed.

(** Two tracks, [frame * Color('#ff9c9c')] and [frame * cov]. *)
Lemma mul_applies_to_every_track_witness :
  let h := mkHeap {[ 1 := mkFrame 1 1 None ]} {[ 1 := ∅ ]}
                  {[ 1 := [("XAxis.1", 1); ("BigWig.1", 2)] ]}
                  {[ 1 := mkTrack ∅ [] None; 2 := mkTrack ∅ [5] None ]} [] in
  (∃ h' result,
     __mul__ 1 (Feature_ "color" (SStr "#ff9c9c")) h = (h', Return (AFrame result))
     ∧ (∀ t tr, t ∈ [1; 2] → h_tracks h !! t = Some tr →
          ∃ tr', h_tracks h' !! t = Some tr'
                 ∧ t_properties tr' = <["color" := SStr "#ff9c9c"]> (t_properties tr)))
  ∧ (∃ h' result,
     __mul__ 1 (Coverage_ 7) h = (h', Return (AFrame result))
     ∧ (∀ t tr, t ∈ [1; 2] → h_tracks h !! t = Some tr →
          ∃ tr', h_tracks h' !! t = Some tr'
                 ∧ t_coverages tr' = t_coverages tr
                     ++ replicate (occurrences t [("XAxis.1", 1); ("BigWig.1", 2)]) 7)).
Proof.
  intros h.
  destruct (mul_applies_to_every_track h 1 (mkFrame 1 1 None)
              [("XAxis.1", 1); ("BigWig.1", 2)]) as [Hfeature Hcov];
    [reflexivity | reflexivity | repeat constructor; by eexists |].
  split.
  - destruct (Hfeature "color" (SStr "#ff9c9c"))
      as (h' & result & E & _ & _ & Hin & _).
    exists h', result. split; [exact E|].
    intros t tr Ht Etr. destruct (Hin t tr Ht Etr) as (tr' & E1 & E2 & _).
    exists tr'. by split.
  - destruct (Hcov 7) as (h' & result & E & _ & _ & Hin & _).
    exists h', result. split; [exact E|].
    intros t tr Ht Etr. destruct (Hin t tr Ht Etr) as (tr' & E1 & E2 & _).
    exists tr'. by split.
Defined.

(** * Fetching data *)

Lemma od_update_new {V} (od : list (string * V)) name data :
  name ∉ od.*1 → od_update od name data = od ++ [(name, data)].
Proof.
  induction od as [|[k v] od IH]; simpl; [done|].
  intros Hnot. apply not_elem_of_cons in Hnot as [Hne Hnot].
  rewrite decide_False by done. by rewrite IH.
Qed.

Lemma od_update_all {V} (f : string * loc → V) (od : list (string * loc)) acc :
  NoDup (acc.*1 ++ od.*1) →
  foldl (λ a item, od_update a item.1 (f item)) acc od
  = acc ++ map (λ item, (item.1, f item)) od.
Proof.
  revert acc. induction od as [|[n t] od IH]; intros acc Hnd; simpl.
  - by rewrite app_nil_r.
  - simpl in Hnd.
    assert (Hn : n ∉ acc.*1).
    { apply NoDup_app in Hnd as (_ & Hdisj & _). intros Hin.
      apply (Hdisj n Hin). by left. }
    rewrite od_update_new by done. rewrite IH.
    + by rewrite <- (assoc_L (++)).
    + rewrite fmap_app. simpl. rewrite <- (assoc_L (++)). done.
Qed.

Lemma log_all h od (g : string * loc → option (loc * GenomeRange)) :
  h_fetch_log (foldl (λ h item, match g item with
                                | Some c => log_fetch c.1 c.2 h
                                | None => h
                                end) h od)
  = h_fetch_log h ++ omap g od.
Proof.
  revert h. induction od as [|item od IH]; intros h; simpl.
  - by rewrite app_nil_r.
  - rewrite IH. destruct (g item) as [[t r']|]; simpl; [|done].
    by rewrite <- (assoc_L (++)).
Qed.

Section FetchData.

Variable parse_region : string → option GenomeRange.

Lemma fetch_or_default_run h t tr r :
  h_tracks h !! t = Some tr →
  fetch_or_default t r h
  = (match t_fetch_data tr with Some _ => log_fetch t r h | None => h end,
     Return (data_for h r t)).
Proof.
  intros E. unfold fetch_or_default, data_for, capability.
  run_with (track_at_run _ _ _ E). rewrite E. simpl.
  by destruct (t_fetch_data tr).
Qed.

(** The loop of [fetch_data] once the range is known. *)
Lemma fetch_loop_run h d od r :
  h_odicts h !! d = Some od →
  NoDup od.*1 →
  (∀ t, t ∈ od.*2 → is_Some (h_tracks h !! t)) →
  ∃ h',
    for_items d (λ item tracks_data,
      data ← fetch_or_default item.2 r;
      mret (od_update tracks_data item.1 data)) [] h
    = (h', Return (map (λ item, (item.1, data_for h r item.2)) od))
    ∧ h_fetch_log h' = h_fetch_log h ++ calls_for h r od
    ∧ h_frames h' = h_frames h ∧ h_dicts h' = h_dicts h
    ∧ h_odicts h' = h_odicts h ∧ h_tracks h' = h_tracks h.
Proof.
  intros Hd Hnd Hts.
  pose (g := λ item : string * loc,
               match capability h item.2 with
               | Some _ => Some (item.2, r)
               | None => None
               end).
  pose (hstep := λ (item : string * loc) (h' : heap),
                   match g item with
                   | Some c => log_fetch c.1 c.2 h'
                   | None => h'
                   end).
  pose (P := λ h' : heap, h_frames h' = h_frames h ∧ h_dicts h' = h_dicts h
                          ∧ h_odicts h' = h_odicts h ∧ h_tracks h' = h_tracks h).
  destruct (for_items_run P d od
              (λ item tracks_data,
                 data ← fetch_or_default item.2 r;
                 mret (od_update tracks_data item.1 data))
              hstep (λ item a, od_update a item.1 (data_for h r item.2)))
    with (h := h) (acc := @nil (string * records)) as [E HP].
  - intros h' (_ & _ & Eo & _). by rewrite Eo.
  - intros [n t] acc h' Hin (Ef & Ed & Eo & Et). simpl.
    destruct (Hts t) as [tr Etr]; [by apply (list_elem_of_fmap_2 snd _ (n, t))|].
    assert (Etr' : h_tracks h' !! t = Some tr) by by rewrite Et.
    run_with (fetch_or_default_run _ _ _ r Etr').
    assert (Edata : data_for h' r t = data_for h r t)
      by (unfold data_for, capability; by rewrite Et).
    rewrite Edata. unfold hstep, g, capability. simpl. rewrite Etr. simpl.
    split; [by destruct (t_fetch_data tr)|].
    by destruct (t_fetch_data tr).
  - done.
  - eexists. destruct HP as (Ef & Ed & Eo & Et).
    split; [|split; [|done]].
    + rewrite E. f_equal. f_equal.
      apply (od_update_all (λ item, data_for h r item.2) od []). by simpl.
    + apply log_all.
Qed.

(** C7 — for a range that resolves, [fetch_data] walks the tracks in the
    order of the Frame's mapping, calls the fetch capability of each track
    that has one with the resolved range (and no other), reports the empty
    list for a track without it, and returns the results under the track
    names in that same order. *)
Theorem fetch_data_in_insertion_order h L f od genome_range r :
  h_frames h !! L = Some f →
  h_odicts h !! f_tracks f = Some od →
  NoDup od.*1 →
  Forall (λ t, is_Some (h_tracks h !! t)) od.*2 →
  resolved parse_region (current_range f) genome_range = Some r →
  ∃ h' tracks_data,
    fetch_data parse_region L genome_range h = (h', Return tracks_data)
    ∧ tracks_data = map (λ item, (item.1, data_for h r item.2)) od
    ∧ tracks_data.*1 = od.*1
    ∧ h_fetch_log h' = h_fetch_log h ++ calls_for h r od
    ∧ h_tracks h' = h_tracks h.
Proof.
  intros Hf Ho Hnd Hts Hr. rewrite Forall_forall in Hts.
  destruct (fetch_loop_run h (f_tracks f) od r Ho Hnd Hts)
    as (h' & E & Hlog & _ & _ & _ & Ht).
  exists h', (map (λ item, (item.1, data_for h r item.2)) od).
  split; [|repeat split; try done].
  - unfold fetch_data.
    assert (Eres : (match genome_range with
                    | None => f0 ← frame_at L; mret (RangeObj <$> current_range f0)
                    | Some g => mret (Some g)
                    end : M (option range_arg)) h
                   = (h, Return (match genome_range with
                                 | None => RangeObj <$> current_range f
                                 | Some g => Some g
                                 end))).
    { destruct genome_range; [done|]. by run_with (frame_at_run _ _ _ Hf). }
    run_with Eres.
    assert (Erange : ∃ g, match genome_range with
                          | None => RangeObj <$> current_range f
                          | Some g => Some g
                          end = Some g
                          ∧ (match g with
                             | RangeStr s => GenomeRange_of_string parse_region s
                             | RangeObj r0 => mret r0
                             end : M GenomeRange) h = (h, Return r)).
    { destruct genome_range as [[s|r0]|]; simpl in Hr.
      - eexists; split; [done|]. unfold GenomeRange_of_string. by rewrite Hr.
      - eexists; split; [done|]. by injection Hr as ->.
      - rewrite Hr. by eexists. }
    destruct Erange as (g & -> & Eg). run_with Eg.
    by run_with (tracks_run _ _ _ Hf).
  - rewrite <- list_fmap_compose. by apply list_fmap_ext.
Qed.

(** The only exceptions a loop can end with are the one of the iterator and
    those of its body. *)
Lemma for_items_from_Raise {A} d began rest (body : string * loc → A → M A) acc h h' e :
  for_items_from d began rest body acc h = (h', Raise e) →
  e = RuntimeError "OrderedDict mutated during iteration"
  ∨ ∃ item acc1 h1 h2, body item acc1 h1 = (h2, Raise e).
Proof.
  revert acc h. induction rest as [|item rest IH]; intros acc h; simpl; [done|].
  unfold mbind, M_bind, odict_at, read.
  destruct (h_odicts h !! d) as [now|]; [|done].
  destruct (decide (now = began)); [|intros [= _ <-]; by left].
  destruct (body item acc h) as [h1 [acc'|e'|]] eqn:Eb; [apply IH| |done].
  intros [= <- <-]. right. by eauto.
Qed.

Lemma fetch_loop_not_MissingRange d r h h' :
  for_items d (λ item tracks_data,
    data ← fetch_or_default item.2 r;
    mret (od_update tracks_data item.1 data)) [] h
  ≠ (h', Raise MissingRange).
Proof.
  unfold for_items, mbind at 1, M_bind at 1, odict_at, read.
  destruct (h_odicts h !! d) as [began|]; [|done].
  intros [E|(item & acc & h1 & h2 & E)]%for_items_from_Raise; [done|].
  revert E. unfold fetch_or_default, mbind, M_bind, track_at, read.
  destruct (h_tracks h1 !! item.2) as [tr|]; [|done].
  by destruct (t_fetch_data tr).
Qed.

(** C8 — with the argument omitted [fetch_data] works with the Frame's
    [current_range]; it raises the missing-range error exactly when the
    argument is omitted and [current_range] is unset, and then the store,
    the log of fetch calls included, is as it was. *)
Theorem fetch_data_missing_range h L f :
  h_frames h !! L = Some f →
  (∀ r, current_range f = Some r →
     fetch_data parse_region L None h = fetch_data parse_region L (Some (RangeObj r)) h)
  ∧ (∀ genome_range,
       (∃ h', fetch_data parse_region L genome_range h = (h', Raise MissingRange))
       ↔ genome_range = None ∧ current_range f = None)
  ∧ (∀ genome_range h',
       fetch_data parse_region L genome_range h = (h', Raise MissingRange) →
       h' = h ∧ h_fetch_log h' = h_fetch_log h).
Proof.
  intros Hf.
  assert (Hnone : fetch_data parse_region L None h
                  = match current_range f with
                    | Some r => fetch_data parse_region L (Some (RangeObj r)) h
                    | None => (h, Raise MissingRange)
                    end).
  { unfold fetch_data.
    assert (E : (f0 ← frame_at L; mret (RangeObj <$> current_range f0)) h
                = (h, Return (RangeObj <$> current_range f)))
      by by run_with (frame_at_run _ _ _ Hf).
    run_with E. by destruct (current_range f). }
  assert (Hsome : ∀ g h', fetch_data parse_region L (Some g) h ≠ (h', Raise MissingRange)).
  { intros g h'. unfold fetch_data. run_with (mret_run h (Some g)).
    assert (Hloop : ∀ r, (ts ← tracks L; for_items ts (λ item tracks_data,
                            data ← fetch_or_default item.2 r;
                            mret (od_update tracks_data item.1 data)) []) h
                         ≠ (h', Raise MissingRange)).
    { intros r. run_with (tracks_run _ _ _ Hf). apply fetch_loop_not_MissingRange. }
    destruct g as [s|r].
    - unfold GenomeRange_of_string.
      destruct (parse_region s) as [r|].
      + run_with (mret_run h r). apply Hloop.
      + done.
    - run_with (mret_run h r). apply Hloop. }
  split; [|split].
  - intros r Hr. by rewrite Hnone, Hr.
  - intros [g|]; split.
    + intros [h' E]. by destruct (Hsome g h').
    + by intros [? _].
    + intros [h' E]. split; [done|]. rewrite Hnone in E.
      destruct (current_range f) as [r|]; [|done]. by destruct (Hsome _ _ E).
    + intros [_ Hc]. exists h. by rewrite Hnone, Hc.
  - intros [g|] h' E.
    + by destruct (Hsome g h').
    + rewrite Hnone in E. destruct (current_range f) as [r|].
      * by destruct (Hsome _ _ E).
      * by injection E as <-.
Qed.

End FetchData.

(** * Adding tracks *)

Global Instance track_name_inj : Inj (=) (=) track_name.
Proof.
  intros n m E. unfold track_name in E.
  apply (inj (String.app "track_")) in E. by apply (inj pretty) in E.
Qed.

Lemma fresh_name_from_elem fuel n names :
  fresh_name_from fuel n names ∈ names →
  ∀ i : nat, (i ≤ fuel)%nat → track_name (n + i) ∈ names.
Proof.
  revert n. induction fuel as [|fuel IH]; intros n; simpl.
  - intros Hin i Hi. by replace (n + i) with n by lia.
  - destruct (decide (track_name n ∈ names)) as [Hn|Hn]; [|done].
    intros Hin [|i] Hi.
    + by rewrite Nat.add_0_r.
    + replace (n + S i) with (S n + i) by lia. apply IH; [done | lia].
Qed.

(** The generated name is not one of the mapping's. *)
Lemma fresh_name_fresh od : fresh_name od ∉ od.*1.
Proof.
  unfold fresh_name. intros Hin.
  pose proof (fresh_name_from_elem _ _ _ Hin) as Hall.
  assert (Hsub : track_name <$> seq (length od) (S (length od)) ⊆+ od.*1).
  { apply NoDup_submseteq.
    - apply (NoDup_fmap_2 _), NoDup_seq.
    - intros x (m & -> & Hm)%list_elem_of_fmap. apply elem_of_seq in Hm.
      replace m with (length od + (m - length od)) by lia. apply Hall. lia. }
  apply submseteq_length in Hsub.
  rewrite !length_fmap, length_seq in Hsub. lia.
Qed.

Lemma append_tracks_app od ts :
  ∃ new, append_tracks od ts = od ++ new ∧ new.*2 = ts
         ∧ (NoDup od.*1 → NoDup (od ++ new).*1).
Proof.
  revert od. induction ts as [|t ts IH]; intros od; simpl.
  - exists []. by rewrite app_nil_r.
  - destruct (IH (od ++ [(fresh_name od, t)])) as (new & E & Ev & Hnd).
    exists ((fresh_name od, t) :: new).
    rewrite E, <- (assoc_L (++)). simpl. split; [done|]. split; [by rewrite <- Ev|].
    intros Hod. rewrite (cons_middle _ od new), (assoc_L (++)). apply Hnd.
    rewrite fmap_app. simpl. apply NoDup_app. split; [done|]. split.
    + intros x Hx ->%list_elem_of_singleton. by apply (fresh_name_fresh od).
    + apply NoDup_singleton.
Qed.

Lemma tracks_added_frames d od h : h_frames (tracks_added d od h) = h_frames h.
Proof. revert h. induction od as [|item od IH]; intros h; simpl; [done|]. by rewrite IH. Qed.

Lemma tracks_added_dicts d od h : h_dicts (tracks_added d od h) = h_dicts h.
Proof. revert h. induction od as [|item od IH]; intros h; simpl; [done|]. by rewrite IH. Qed.

Lemma tracks_added_tracks d od h : h_tracks (tracks_added d od h) = h_tracks h.
Proof. revert h. induction od as [|item od IH]; intros h; simpl; [done|]. by rewrite IH. Qed.

Lemma tracks_added_log d od h : h_fetch_log (tracks_added d od h) = h_fetch_log h.
Proof. revert h. induction od as [|item od IH]; intros h; simpl; [done|]. by rewrite IH. Qed.

Lemma tracks_added_other d od h d' :
  d ≠ d' → h_odicts (tracks_added d od h) !! d' = h_odicts h !! d'.
Proof.
  intros Hne. revert h. induction od as [|item od IH]; intros h; [done|].
  change (tracks_added d (item :: od) h)
    with (tracks_added d od
            (set_odicts (alter (λ od, od ++ [(fresh_name od, item.2)]) d) h)).
  rewrite IH. simpl. by rewrite lookup_alter_ne.
Qed.

Lemma tracks_added_lookup d od h odL :
  h_odicts h !! d = Some odL →
  h_odicts (tracks_added d od h) !! d = Some (append_tracks odL od.*2).
Proof.
  revert h odL. induction od as [|item od IH]; intros h odL E; [done|].
  change (tracks_added d (item :: od) h)
    with (tracks_added d od
            (set_odicts (alter (λ od, od ++ [(fresh_name od, item.2)]) d) h)).
  simpl. apply IH. simpl. by rewrite lookup_alter_eq, E.
Qed.

(** The loop [for track in other.tracks.values(): result.add_track(track)]
    when [other]'s mapping is not the one [result] holds. *)
Lemma add_tracks_loop_run h result f odL dR odR :
  h_frames h !! result = Some f →
  h_odicts h !! f_tracks f = Some odL →
  h_odicts h !! dR = Some odR →
  f_tracks f ≠ dR →
  for_values dR (λ track, add_track result track) h
  = (tracks_added (f_tracks f) odR h, Return tt).
Proof.
  intros Hf HoL HoR Hne. unfold for_values.
  pose (P := λ h' : heap, h_frames h' = h_frames h
                          ∧ h_odicts h' !! dR = Some odR
                          ∧ is_Some (h_odicts h' !! f_tracks f)).
  destruct (for_items_run P dR odR (λ item (_ : unit), add_track result item.2)
              (λ item h', set_odicts
                 (alter (λ od, od ++ [(fresh_name od, item.2)]) (f_tracks f)) h')
              (λ _ a, a)) with (h := h) (acc := tt) as [E _].
  - by intros h' (_ & Eo & _).
  - intros [n t] [] h' _ (Ef & Eo & [od Eod]). simpl.
    assert (Hf' : h_frames h' !! result = Some f) by by rewrite Ef.
    rewrite (add_track_run _ _ _ _ t Hf' Eod). unfold set_odicts at 1 2.
    rewrite (insert_as_alter (λ od, od ++ [(fresh_name od, t)]) _ _ _ Eod).
    split; [done|]. split; [done|]. simpl. split.
    + by rewrite lookup_alter_ne.
    + apply lookup_alter_is_Some. by eexists.
  - by repeat split.
  - rewrite E. f_equal. f_equal. clear. by induction odR.
Qed.

(** * Frame + Frame *)

(** Frame + Frame when the two Frames hold different track mappings: it
    puts every track of [R], in the order of [R]'s mapping, after the
    tracks the mapping of [L] already had (under names that keep the names
    of the mapping distinct), leaves [R]'s mapping as it was, and writes
    the properties of [R] into the properties mapping of the result: a key
    of [R] takes [R]'s value, whatever [L] had for it, and the other keys
    keep theirs.  No exception is raised. *)
Theorem add_frame_appends_and_merges h L R fL fR odL odR pL pR :
  h_frames h !! L = Some fL →
  h_frames h !! R = Some fR →
  h_odicts h !! f_tracks fL = Some odL →
  h_odicts h !! f_tracks fR = Some odR →
  f_tracks fL ≠ f_tracks fR →
  h_dicts h !! f_properties fL = Some pL →
  h_dicts h !! f_properties fR = Some pR →
  ∃ h' result new,
    __add__ L (Frame_ R) h = (h', Return (AFrame result))
    ∧ h_frames h' !! result = Some fL
    ∧ h_odicts h' !! f_tracks fL = Some (odL ++ new)
    ∧ new.*2 = odR.*2
    ∧ (NoDup odL.*1 → NoDup (odL ++ new).*1)
    ∧ h_odicts h' !! f_tracks fR = Some odR
    ∧ h_dicts h' !! f_properties fL = Some (pR ∪ pL)
    ∧ (∀ k v, pR !! k = Some v → (pR ∪ pL) !! k = Some v)
    ∧ (∀ k, pR !! k = None → (pR ∪ pL) !! k = pL !! k)
    ∧ h_tracks h' = h_tracks h.
Proof.
  intros HL HR HoL HoR Hne HpL HpR.
  destruct (append_tracks_app odL odR.*2) as (new & Eapp & Enew & Hnd).
  pose (h1 := copied fL h).
  pose (h2 := tracks_added (f_tracks fL) odR h1).
  exists (set_dicts <[f_properties fL := pR ∪ pL]> h2), (new_frame h), new.
  assert (Hnew : h_frames h1 !! new_frame h = Some fL) by apply copied_frames_new.
  assert (HR1 : h_frames h1 !! R = Some fR) by by eapply copied_frames_old.
  assert (HoL1 : h_odicts h1 !! f_tracks fL = Some odL) by done.
  assert (HoR1 : h_odicts h1 !! f_tracks fR = Some odR) by done.
  assert (Hnew2 : h_frames h2 !! new_frame h = Some fL)
    by (unfold h2; by rewrite tracks_added_frames).
  assert (HR2 : h_frames h2 !! R = Some fR)
    by (unfold h2; by rewrite tracks_added_frames).
  assert (HpL2 : h_dicts h2 !! f_properties fL = Some pL)
    by (unfold h2; by rewrite tracks_added_dicts).
  assert (HpR2 : h_dicts h2 !! f_properties fR = Some pR)
    by (unfold h2; by rewrite tracks_added_dicts).
  split; [|repeat split].
  - unfold __add__. run_with (copy_run _ _ _ HL). simpl.
    run_with (mret_run h1 R). run_with (tracks_run _ _ _ HR1).
    run_with (add_tracks_loop_run _ _ _ _ _ _ Hnew HoL1 HoR1 Hne).
    run_with (properties_run _ _ _ Hnew2). run_with (properties_run _ _ _ HR2).
    by run_with (dict_update_run _ _ _ _ _ HpL2 HpR2).
  - done.
  - simpl. unfold h2. rewrite (tracks_added_lookup _ _ _ _ HoL1). by rewrite Eapp.
  - done.
  - done.
  - simpl. unfold h2. by rewrite tracks_added_other.
  - simpl. apply lookup_insert_eq.
  - intros k v Ek. by apply lookup_union_Some_l.
  - intros k Ek. by apply lookup_union_r.
  - simpl. unfold h2. by rewrite tracks_added_tracks.
Qed.

(** Two Frames with one track each and a common key in their properties. *)
Lemma add_frame_appends_and_merges_witness :
  let h := mkHeap {[ 1 := mkFrame 1 1 None; 2 := mkFrame 2 2 None ]}
                  {[ 1 := {[ "width" := SInt 40; "title" := SStr "left" ]};
                     2 := {[ "width" := SInt 20 ]} ]}
                  {[ 1 := [("track_0", 1)]; 2 := [("track_0", 2)] ]}
                  {[ 1 := mkTrack ∅ [] None; 2 := mkTrack ∅ [] None ]} [] in
  ∃ h' result new,
    __add__ 1 (Frame_ 2) h = (h', Return (AFrame result))
    ∧ h_odicts h' !! 1 = Some ([("track_0", 1)] ++ new)
    ∧ new.*2 = [2]
    ∧ h_dicts h' !! 1
      = Some ({[ "width" := SInt 20 ]} ∪ {[ "width" := SInt 40; "title" := SStr "left" ]}).
Proof.
  intros h.
  destruct (add_frame_appends_and_merges h 1 2 (mkFrame 1 1 None) (mkFrame 2 2 None)
              [("track_0", 1)] [("track_0", 2)]
              {[ "width" := SInt 40; "title" := SStr "left" ]} {[ "width" := SInt 20 ]})
    as (h' & result & new & E & _ & Eo & En & _ & _ & Ed & _);
    [reflexivity | reflexivity | reflexivity | reflexivity | simpl; lia
    | reflexivity | reflexivity |].
  exists h', result, new. repeat split; assumption.
Defined.

(** * What the copy shares with the left operand *)

(** [result = L + track]: the result is a new Frame object, but its
    [tracks] and [properties] attributes are the mapping objects of [L].
    The track lands in the mapping [L] holds, and an assignment
    [result.properties[k] = v] made afterwards is an assignment to
    [L.properties]. *)
Lemma add_track_shares_mappings h L f od p t :
  h_frames h !! L = Some f →
  h_odicts h !! f_tracks f = Some od →
  h_dicts h !! f_properties f = Some p →
  ∃ h1 result,
    __add__ L (Track_ t) h = (h1, Return (AFrame result))
    ∧ result ≠ L
    ∧ h_frames h1 !! result = Some f
    ∧ h_frames h1 !! L = Some f
    ∧ h_odicts h1 !! f_tracks f = Some (od ++ [(fresh_name od, t)])
    ∧ ∀ k v, ∃ h2,
        (rp ← properties result; dict_setitem rp k v) h1 = (h2, Return tt)
        ∧ (lp ← properties L; dict_at lp) h2 = (h2, Return (<[k := v]> p)).
Proof.
  intros Hf Ho Hp.
  pose (h1 := set_odicts <[f_tracks f := od ++ [(fresh_name od, t)]]> (copied f h)).
  exists h1, (new_frame h).
  assert (Hnew : h_frames (copied f h) !! new_frame h = Some f)
    by apply copied_frames_new.
  assert (HL : h_frames h1 !! L = Some f) by by eapply copied_frames_old.
  assert (Hp1 : h_dicts h1 !! f_properties f = Some p) by done.
  split; [|repeat split].
  - unfold __add__. run_with (copy_run _ _ _ Hf). simpl.
    run_with (mret_run (copied f h) t).
    assert (Ho' : h_odicts (copied f h) !! f_tracks f = Some od) by done.
    by run_with (add_track_run _ _ _ _ t Hnew Ho').
  - by eapply new_frame_ne.
  - done.
  - done.
  - simpl. apply lookup_insert_eq.
  - intros k v. exists (set_dicts <[f_properties f := <[k := v]> p]> h1). split.
    + assert (Hnew1 : h_frames h1 !! new_frame h = Some f) by done.
      run_with (properties_run _ _ _ Hnew1). by apply dict_setitem_run.
    + assert (HL2 : h_frames (set_dicts <[f_properties f := <[k := v]> p]> h1) !! L
                    = Some f) by done.
      run_with (properties_run _ _ _ HL2). apply dict_at_run. simpl.
      apply lookup_insert_eq.
Qed.

(** [L + FrameFeature(k, v)] writes [k] into the properties mapping [L]
    itself holds. *)
Lemma add_frame_feature_writes_left h L f p k v :
  h_frames h !! L = Some f →
  h_dicts h !! f_properties f = Some p →
  ∃ h1 result,
    __add__ L (FrameFeature_ k v) h = (h1, Return (AFrame result))
    ∧ result ≠ L
    ∧ (lp ← properties L; dict_at lp) h = (h, Return p)
    ∧ (lp ← properties L; dict_at lp) h1 = (h1, Return (<[k := v]> p)).
Proof.
  intros Hf Hp.
  pose (h1 := set_dicts <[f_properties f := <[k := v]> p]> (copied f h)).
  exists h1, (new_frame h).
  assert (Hnew : h_frames (copied f h) !! new_frame h = Some f)
    by apply copied_frames_new.
  assert (HL : h_frames h1 !! L = Some f) by by eapply copied_frames_old.
  split; [|repeat split].
  - unfold __add__. run_with (copy_run _ _ _ Hf). simpl.
    run_with (mret_run (copied f h) k). run_with (mret_run (copied f h) v).
    run_with (properties_run _ _ _ Hnew).
    assert (Hp' : h_dicts (copied f h) !! f_properties f = Some p) by done.
    by run_with (dict_setitem_run _ _ _ k v Hp').
  - by eapply new_frame_ne.
  - run_with (properties_run _ _ _ Hf). by apply dict_at_run.
  - run_with (properties_run _ _ _ HL). apply dict_at_run. simpl.
    apply lookup_insert_eq.
Qed.

(** C1 — copy isolation does not hold.  With [L] the Frame of
    [shared_store], [result = L + trackX] is a new object, yet [L] has the
    track afterwards, and after [result.properties["title"] = "x"] the
    properties of [L] have the key title; [L + FrameFeature("title", "x")]
    sets the key in the properties of [L] as well. *)
Theorem combine_mutates_left_operand :
  ∃ h1 result h2 h3 result',
    __add__ 1 (Track_ 5) shared_store = (h1, Return (AFrame result))
    ∧ result ≠ 1
    ∧ (lp ← properties 1; dict_at lp) shared_store
      = (shared_store, Return {[ "width" := SInt 40 ]})
    ∧ (lt ← tracks 1; odict_at lt) shared_store = (shared_store, Return [])
    ∧ (lt ← tracks 1; odict_at lt) h1 = (h1, Return [("track_0", 5)])
    ∧ (rp ← properties result; dict_setitem rp "title" (SStr "x")) h1 = (h2, Return tt)
    ∧ (lp ← properties 1; dict_at lp) h2
      = (h2, Return (<["title" := SStr "x"]> {[ "width" := SInt 40 ]}))
    ∧ __add__ 1 (FrameFeature_ "title" (SStr "x")) shared_store
      = (h3, Return (AFrame result'))
    ∧ result' ≠ 1
    ∧ (lp ← properties 1; dict_at lp) h3
      = (h3, Return (<["title" := SStr "x"]> {[ "width" := SInt 40 ]})).
Proof.
  destruct (add_track_shares_mappings shared_store 1 (mkFrame 1 1 None) []
              {[ "width" := SInt 40 ]} 5)
    as (h1 & result & E1 & Hne & _ & HL1 & Ho1 & Hset); [reflexivity..|].
  destruct (Hset "title" (SStr "x")) as (h2 & E2 & E2').
  destruct (add_frame_feature_writes_left shared_store 1 (mkFrame 1 1 None)
              {[ "width" := SInt 40 ]} "title" (SStr "x"))
    as (h3 & result' & E3 & Hne' & _ & E3'); [reflexivity..|].
  exists h1, result, h2, h3, result'.
  repeat split; try done.
  run_with (tracks_run _ _ _ HL1). by apply odict_at_run.
Qed.

(** * Fetching: the example of the specification *)

Lemma fetch_data_in_insertion_order_witness :
  ∃ h',
    fetch_data (λ _, None) 1 (Some (RangeObj chr1_1000_2000)) fetch_store
    = (h', Return [("A", []); ("B", [SStr "r1"])])
    ∧ h_fetch_log h' = [(2, chr1_1000_2000)].
Proof.
  destruct (fetch_data_in_insertion_order (λ _, None) fetch_store 1 (mkFrame 1 1 None)
              [("A", 1); ("B", 2)] (Some (RangeObj chr1_1000_2000)) chr1_1000_2000)
    as (h' & tracks_data & E & -> & _ & Hlog & _);
    [reflexivity | reflexivity
    | compute_done
    | repeat constructor; by eexists
    | reflexivity |].
  exists h'. split; [exact E | exact Hlog].
Defined.

Lemma fetch_data_missing_range_witness :
  fetch_data (λ _, None) 1 None fetch_store = (fetch_store, Raise MissingRange)
  ∧ ∀ h', fetch_data (λ _, None) 1 (Some (RangeStr "chr1")) fetch_store
          ≠ (h', Raise MissingRange).
Proof.
  destruct (fetch_data_missing_range (λ _, None) fetch_store 1 (mkFrame 1 1 None))
    as (_ & Hiff & Hsame); [reflexivity|].
  split.
  - destruct (proj2 (Hiff None)) as [h' E]; [by split|].
    destruct (Hsame None h' E) as [-> _]. exact E.
  - intros h' E. destruct (proj1 (Hiff (Some (RangeStr "chr1")))) as [? _]; [by eexists|].
    discriminate.
Defined.

(** * The doctests of [__add__] and [__mul__] *)

(** Rule: Frame + Track == Frame, with one more track. *)
Example doctest_add_track :
  (__add__ 1 (Track_ 3) two_tracks).2 = Return (AFrame 2)
  ∧ h_odicts (__add__ 1 (Track_ 3) two_tracks).1 !! 1
    = Some [("XAxis.1", 1); ("BigWig.1", 2); ("track_2", 3)].
Proof. split; vm_compute; reflexivity. Qed.

(** Rule: Frame + Coverage == Frame; the coverage is on the last track. *)
Example doctest_add_coverage :
  coverages_after (__add__ 1 (Coverage_ 7)) two_tracks 1 = Some []
  ∧ coverages_after (__add__ 1 (Coverage_ 7)) two_tracks 2 = Some [7].
Proof. split; vm_compute; reflexivity. Qed.

(** Rule: Frame + CoverageStack == Frame; both coverages are on the last
    track. *)
Example doctest_add_coverage_stack :
  coverages_after (__add__ 1 (CoverageStack_ [7; 8])) two_tracks 1 = Some []
  ∧ coverages_after (__add__ 1 (CoverageStack_ [7; 8])) two_tracks 2 = Some [7; 8].
Proof. split; vm_compute; reflexivity. Qed.

(** Rule: Frame * Coverage == Frame; the coverage is on every track. *)
Example doctest_mul_coverage :
  coverages_after (__mul__ 1 (Coverage_ 7)) two_tracks 1 = Some [7]
  ∧ coverages_after (__mul__ 1 (Coverage_ 7)) two_tracks 2 = Some [7].
Proof. split; vm_compute; reflexivity. Qed.

(** With two tracks the two operators differ on a Feature: [*] colors both
    tracks, [+] the last one only. *)
Example mul_and_add_differ :
  color_after (__mul__ 1 (Feature_ "color" (SStr "#ff9c9c"))) two_tracks 1
    = Some (SStr "#ff9c9c")
  ∧ color_after (__mul__ 1 (Feature_ "color" (SStr "#ff9c9c"))) two_tracks 2
    = Some (SStr "#ff9c9c")
  ∧ color_after (__add__ 1 (Feature_ "color" (SStr "#ff9c9c"))) two_tracks 1 = None
  ∧ color_after (__add__ 1 (Feature_ "color" (SStr "#ff9c9c"))) two_tracks 2
    = Some (SStr "#ff9c9c").
Proof. repeat split; vm_compute; reflexivity. Qed.

(** A FrameFeature goes to the properties of the Frame and to no track. *)
Example add_frame_feature_no_track :
  h_dicts (__add__ 1 (FrameFeature_ "title" (SStr "x")) two_tracks).1 !! 1
    = Some {[ "title" := SStr "x" ]}
  ∧ h_tracks (__add__ 1 (FrameFeature_ "title" (SStr "x")) two_tracks).1
    = h_tracks two_tracks.
Proof. split; vm_compute; reflexivity. Qed.

(** A Frame added to itself: the copy holds the mapping the loop walks, so
    the first [add_track] modifies it and the iterator raises. *)
Example add_frame_to_itself :
  (__add__ 1 (Frame_ 1) two_tracks).2
  = Raise (RuntimeError "OrderedDict mutated during iteration").
Proof. vm_compute; reflexivity. Qed.


(** The Browser of [L + WidgetsPanel(...)] is [L]: a [goto] on [L] made
    afterwards is seen through the Browser. *)
Example browser_follows_left_operand :
  let m := (b ← __add__ 1 (WidgetsPanel_ "hg19" "simple");
            _ ← goto (λ _, None) 1 (RangeObj chr1_1000_2000);
            match b with
            | ABrowser b => f ← frame_at (b_frame b); mret (current_range f)
            | AFrame _ => stuck
            end) in
  (m two_tracks).2 = Return (Some chr1_1000_2000).
Proof. vm_compute; reflexivity. Qed.

(** * What the methods leave alone *)

Global Instance keeps_preorder {B} (proj : heap → B) : PreOrder (keeps proj).
Proof.
  split; [by intros h | intros h1 h2 h3 E1 E2]. unfold keeps in *. congruence.
Qed.

Global Instance frames_kept_preorder : PreOrder frames_kept.
Proof.
  split; [intros h a fo E; exact E | intros h1 h2 h3 E1 E2 a fo E].
  apply E2, E1, E.
Qed.

Global Instance log_grows_preorder : PreOrder log_grows.
Proof.
  split.
  - intros h. exists []. by rewrite app_nil_r.
  - intros h1 h2 h3 [l1 E1] [l2 E2]. exists (l1 ++ l2).
    by rewrite E2, E1, (assoc_L (++)).
Qed.

Lemma respects_ret {A} R `{!Reflexive R} (a : A) : respects R (mret a : M A).
Proof. by intros h h' o [= <- _]. Qed.

Lemma respects_raise {A} R `{!Reflexive R} e : respects R (raise e : M A).
Proof. by intros h h' o [= <- _]. Qed.

Lemma respects_stuck {A} R `{!Reflexive R} : respects R (stuck : M A).
Proof. by intros h h' o [= <- _]. Qed.

Lemma respects_read {A} R `{!Reflexive R} (sel : heap → option A) : respects R (read sel).
Proof. intros h h' o. unfold read. by destruct (sel h); intros [= <- _]. Qed.

Lemma respects_modify R (f : heap → heap) : (∀ h, R h (f h)) → respects R (modify f).
Proof. intros Hf h h' o [= <- _]. apply Hf. Qed.

Lemma respects_bind {A B} R `{!Transitive R} (m : M A) (k : A → M B) :
  respects R m → (∀ a, respects R (k a)) → respects R (m ≫= k).
Proof.
  intros Hm Hk h h' o. unfold mbind, M_bind.
  destruct (m h) as [h1 [a|e|]] eqn:E.
  - intros Ek. etrans; [by eapply Hm | by eapply Hk].
  - intros [= <- _]. by eapply Hm.
  - intros [= <- _]. by eapply Hm.
Qed.

Lemma respects_for_items_from {A} R `{!PreOrder R} d began rest
    (body : string * loc → A → M A) acc :
  (∀ item acc, respects R (body item acc)) →
  respects R (for_items_from d began rest body acc).
Proof.
  intros Hbody. revert acc. induction rest as [|item rest IH]; intros acc; simpl.
  - apply respects_ret; apply _.
  - apply respects_bind; [apply _ | apply respects_read; apply _ |]. intros now.
    destruct (decide (now = began)); [|apply respects_raise; apply _].
    apply respects_bind; [apply _ | apply Hbody | apply IH].
Qed.

Lemma respects_weaken {A} (R R' : heap → heap → Prop) (m : M A) :
  (∀ h h', R h h' → R' h h') → respects R m → respects R' m.
Proof. intros HR Hm h h' o E. by eapply HR, Hm. Qed.

(** [copy] stops on a missing object or adds one Frame object at a new
    address. *)
Lemma copy_cases self h :
  copy self h = (h, Stuck)
  ∨ ∃ f, h_frames h !! self = Some f ∧ copy self h = (copied f h, Return (new_frame h)).
Proof.
  destruct (h_frames h !! self) as [f|] eqn:E.
  - right. exists f. split; [done|]. by apply copy_run.
  - left. unfold copy, mbind, M_bind, frame_at, read. by rewrite E.
Qed.

Lemma respects_copy R `{!Reflexive R} self :
  (∀ f h, R h (copied f h)) → respects R (copy self).
Proof.
  intros Hc h h' o E. destruct (copy_cases self h) as [E'|(f & _ & E')];
    rewrite E' in E; injection E as <- _; [done | apply Hc].
Qed.

Lemma frames_kept_copied f h : frames_kept h (copied f h).
Proof. intros a fo E. by eapply copied_frames_old. Qed.

Lemma yields_ret {A} (P : A → Prop) a : P a → yields P (mret a : M A).
Proof. by intros Ha h h' a' [= _ <-]. Qed.

Lemma yields_raise {A} (P : A → Prop) e : yields P (raise e : M A).
Proof. by intros h h' a'. Qed.

Lemma yields_stuck {A} (P : A → Prop) : yields P (stuck : M A).
Proof. by intros h h' a'. Qed.

Lemma yields_bind {A B} (P : B → Prop) (m : M A) (k : A → M B) :
  (∀ a, yields P (k a)) → yields P (m ≫= k).
Proof.
  intros Hk h h' b. unfold mbind, M_bind.
  destruct (m h) as [h1 [a|e|]]; [by apply Hk | done | done].
Qed.

Ltac unfold_methods :=
  unfold add_cov_to_tracks, add_feature_to_tracks, for_values, for_items, add_track,
    tracks, properties, len, last_value, dict_setitem, dict_update, track_setitem,
    append_coverage, pile_coverages, dict_store, odict_store, track_store,
    fetch_or_default, GenomeRange_of_string,
    frame_at, dict_at, odict_at, track_at.

Ltac respects_leaf :=
  first [ done
        | by eexists
        | by (exists []; simpl; rewrite app_nil_r)
        | by apply frames_kept_copied ].

Ltac respects_tac :=
  repeat first
    [ apply respects_ret; apply _
    | apply respects_raise; apply _
    | apply respects_stuck; apply _
    | apply respects_read; apply _
    | apply respects_modify; intros ?; respects_leaf
    | apply respects_copy; [apply _ | intros ? ?; respects_leaf]
    | apply respects_bind; [apply _ | | intros ?]
    | apply respects_for_items_from; [apply _ | intros ? ?]
    | lazymatch goal with
      | |- respects _ (if ?b then _ else _) => destruct b
      | |- respects _ (match ?x with _ => _ end) => destruct x
      end ].

Ltac yields_tac :=
  repeat first
    [ apply yields_raise
    | apply yields_stuck
    | apply yields_bind; intros ?
    | lazymatch goal with
      | |- yields _ (if ?b then _ else _) => destruct b
      end ].

Lemma add_respects R `{!PreOrder R} self other :
  (∀ f h, R h (copied f h)) →
  (∀ g h, R h (set_dicts g h)) →
  (∀ g h, R h (set_odicts g h)) →
  (∀ g h, R h (set_tracks g h)) →
  respects R (__add__ self other).
Proof.
  intros Hc Hd Ho Ht. unfold __add__. unfold_methods.
  apply respects_bind; [apply _ | apply respects_copy; [apply _ | apply Hc] |].
  intros result.
  destruct other; simpl;
    repeat first
      [ apply respects_ret; apply _
      | apply respects_raise; apply _
      | apply respects_stuck; apply _
      | apply respects_read; apply _
      | apply respects_modify; intros ?; solve [apply Hd | apply Ho | apply Ht]
      | apply respects_bind; [apply _ | | intros ?]
      | apply respects_for_items_from; [apply _ | intros ? ?]
      | lazymatch goal with
        | |- respects _ (if ?b then _ else _) => destruct b
        | |- respects _ (match ?x with _ => _ end) => destruct x
        end ].
Qed.

Lemma mul_respects R `{!PreOrder R} self other :
  (∀ f h, R h (copied f h)) →
  (∀ g h, R h (set_tracks g h)) →
  respects R (__mul__ self other).
Proof.
  intros Hc Ht. unfold __mul__. unfold_methods.
  destruct other; simpl;
    repeat first
      [ apply respects_ret; apply _
      | apply respects_raise; apply _
      | apply respects_stuck; apply _
      | apply respects_read; apply _
      | apply respects_modify; intros ?; apply Ht
      | apply respects_copy; [apply _ | apply Hc]
      | apply respects_bind; [apply _ | | intros ?]
      | apply respects_for_items_from; [apply _ | intros ? ?]
      | lazymatch goal with
        | |- respects _ (if ?b then _ else _) => destruct b
        | |- respects _ (match ?x with _ => _ end) => destruct x
        end ].
Qed.

Lemma fetch_data_respects R `{!PreOrder R} parse_region self genome_range :
  (∀ t r h, R h (log_fetch t r h)) →
  respects R (fetch_data parse_region self genome_range).
Proof.
  intros Hl. unfold fetch_data. unfold_methods.
  repeat first
    [ apply respects_ret; apply _
    | apply respects_raise; apply _
    | apply respects_stuck; apply _
    | apply respects_read; apply _
    | apply respects_modify; intros ?; apply Hl
    | apply respects_bind; [apply _ | | intros ?]
    | apply respects_for_items_from; [apply _ | intros ? ?]
    | lazymatch goal with
      | |- respects _ (if ?b then _ else _) => destruct b
      | |- respects _ (match ?x with _ => _ end) => destruct x
      end ].
Qed.

(** Whatever the right operand and whether [__add__] returns or raises, a
    Frame object that was in the store keeps its three attributes (the
    operator never rebinds [properties], [tracks] or [current_range] of the
    left operand or of any other Frame), and no track is asked for data. *)
Theorem add_rebinds_no_attribute h L other a fo :
  h_frames h !! a = Some fo →
  h_frames (__add__ L other h).1 !! a = Some fo
  ∧ h_fetch_log (__add__ L other h).1 = h_fetch_log h.
Proof.
  intros E. destruct (__add__ L other h) as [h' o] eqn:Eadd. simpl. split.
  - by apply (add_respects frames_kept L other frames_kept_copied
                ltac:(by intros ????) ltac:(by intros ????) ltac:(by intros ????)
                h h' o Eadd).
  - by apply (add_respects (keeps h_fetch_log) L other
                ltac:(by intros) ltac:(by intros) ltac:(by intros) ltac:(by intros) h h' o Eadd).
Qed.

Lemma add_rebinds_no_attribute_witness :
  h_frames (__add__ 1 (Frame_ 1) two_tracks).1 !! 1 = Some (mkFrame 1 1 None)
  ∧ h_fetch_log (__add__ 1 (Frame_ 1) two_tracks).1 = [].
Proof.
  apply (add_rebinds_no_attribute two_tracks 1 (Frame_ 1) 1 (mkFrame 1 1 None)).
  reflexivity.
Defined.

(** Whatever the right operand and the outcome, [__mul__] changes no
    properties mapping of a Frame and no track mapping, rebinds no attribute
    of a Frame that was in the store and asks no track for data: Track
    objects are all it writes to. *)
Theorem mul_writes_to_tracks_only h L other :
  h_dicts (__mul__ L other h).1 = h_dicts h
  ∧ h_odicts (__mul__ L other h).1 = h_odicts h
  ∧ h_fetch_log (__mul__ L other h).1 = h_fetch_log h
  ∧ ∀ a fo, h_frames h !! a = Some fo → h_frames (__mul__ L other h).1 !! a = Some fo.
Proof.
  destruct (__mul__ L other h) as [h' o] eqn:Emul. simpl.
  split; [|split; [|split]].
  - by apply (mul_respects (keeps h_dicts) L other
                ltac:(by intros) ltac:(by intros) h h' o Emul).
  - by apply (mul_respects (keeps h_odicts) L other
                ltac:(by intros) ltac:(by intros) h h' o Emul).
  - by apply (mul_respects (keeps h_fetch_log) L other
                ltac:(by intros) ltac:(by intros) h h' o Emul).
  - by apply (mul_respects frames_kept L other frames_kept_copied
                ltac:(by intros ????) h h' o Emul).
Qed.

(** Whatever the argument and the outcome, [fetch_data] leaves every Frame,
    properties mapping, track mapping and Track object as it was; the only
    trace it leaves is the calls to the tracks' fetch capability. *)
Theorem fetch_data_reads_only parse_region h L genome_range :
  h_frames (fetch_data parse_region L genome_range h).1 = h_frames h
  ∧ h_dicts (fetch_data parse_region L genome_range h).1 = h_dicts h
  ∧ h_odicts (fetch_data parse_region L genome_range h).1 = h_odicts h
  ∧ h_tracks (fetch_data parse_region L genome_range h).1 = h_tracks h
  ∧ ∃ calls, h_fetch_log (fetch_data parse_region L genome_range h).1
             = h_fetch_log h ++ calls.
Proof.
  destruct (fetch_data parse_region L genome_range h) as [h' o] eqn:Ef. simpl.
  split; [|split; [|split; [|split]]].
  - by apply (fetch_data_respects (keeps h_frames) parse_region L genome_range
                ltac:(by intros) h h' o Ef).
  - by apply (fetch_data_respects (keeps h_dicts) parse_region L genome_range
                ltac:(by intros) h h' o Ef).
  - by apply (fetch_data_respects (keeps h_odicts) parse_region L genome_range
                ltac:(by intros) h h' o Ef).
  - by apply (fetch_data_respects (keeps h_tracks) parse_region L genome_range
                ltac:(by intros) h h' o Ef).
  - apply (fetch_data_respects log_grows parse_region L genome_range) with (o := o);
      [|done].
    intros t r h0. by eexists.
Qed.

(** * The branches of [__add__] on a Frame with tracks *)

Lemma add_last_track_run h L f od name lt tr (other : operand) (g : Track → Track)
    (body : loc → M unit) :
  h_frames h !! L = Some f →
  h_odicts h !! f_tracks f = Some od →
  last od = Some (name, lt) →
  h_tracks h !! lt = Some tr →
  body lt (copied f h) = (set_tracks <[lt := g tr]> (copied f h), Return tt) →
  (rts ← tracks (new_frame h);
   n ← len rts;
   _ ← (if decide (n ≠ 0) then last ← last_value rts; body last else mret tt);
   mret (AFrame (new_frame h))) (copied f h)
  = (set_tracks <[lt := g tr]> (copied f h), Return (AFrame (new_frame h))).
Proof.
  intros Hf Ho Hl Ht Hbody.
  assert (Hnew : h_frames (copied f h) !! new_frame h = Some f)
    by apply copied_frames_new.
  assert (Ho' : h_odicts (copied f h) !! f_tracks f = Some od) by done.
  run_with (tracks_run _ _ _ Hnew). run_with (len_run _ _ _ Ho').
  rewrite decide_True by by eapply last_Some_length.
  assert (E : (last_value (f_tracks f) ≫= λ last, body last) (copied f h)
              = (set_tracks <[lt := g tr]> (copied f h), Return tt)).
  { by run_with (last_value_run _ _ _ _ _ Ho' Hl). }
  by run_with E.
Qed.

Lemma add_feature_run h L f od name lt tr k v :
  h_frames h !! L = Some f →
  h_odicts h !! f_tracks f = Some od →
  last od = Some (name, lt) →
  h_tracks h !! lt = Some tr →
  __add__ L (Feature_ k v) h
  = (set_tracks <[lt := with_property k v tr]> (copied f h), Return (AFrame (new_frame h))).
Proof.
  intros Hf Ho Hl Ht. unfold __add__. run_with (copy_run _ _ _ Hf). simpl.
  apply (add_last_track_run h L f od name lt tr (Feature_ k v) (with_property k v)
           (λ last, k0 ← key_of (Feature_ k v); v0 ← value_of (Feature_ k v);
                    track_setitem last k0 v0) Hf Ho Hl Ht).
  simpl. run_with (mret_run (copied f h) k). run_with (mret_run (copied f h) v).
  by apply track_setitem_run.
Qed.

Lemma add_coverage_run h L f od name lt tr c :
  h_frames h !! L = Some f →
  h_odicts h !! f_tracks f = Some od →
  last od = Some (name, lt) →
  h_tracks h !! lt = Some tr →
  __add__ L (Coverage_ c) h
  = (set_tracks <[lt := with_coverages [c] tr]> (copied f h), Return (AFrame (new_frame h))).
Proof.
  intros Hf Ho Hl Ht. unfold __add__. run_with (copy_run _ _ _ Hf). simpl.
  apply (add_last_track_run h L f od name lt tr (Coverage_ c) (with_coverages [c])
           (λ last, c0 ← as_coverage (Coverage_ c); append_coverage last c0) Hf Ho Hl Ht).
  simpl. run_with (mret_run (copied f h) c). by apply append_coverage_run.
Qed.

Lemma add_coverage_stack_run h L f od name lt tr cs :
  h_frames h !! L = Some f →
  h_odicts h !! f_tracks f = Some od →
  last od = Some (name, lt) →
  h_tracks h !! lt = Some tr →
  __add__ L (CoverageStack_ cs) h
  = (set_tracks <[lt := with_coverages cs tr]> (copied f h), Return (AFrame (new_frame h))).
Proof.
  intros Hf Ho Hl Ht. unfold __add__. run_with (copy_run _ _ _ Hf). simpl.
  apply (add_last_track_run h L f od name lt tr (CoverageStack_ cs) (with_coverages cs)
           (λ last, cs0 ← coverages_of (CoverageStack_ cs); pile_coverages last cs0)
           Hf Ho Hl Ht).
  simpl. run_with (mret_run (copied f h) cs). by apply pile_coverages_run.
Qed.

Lemma add_frame_feature_run h L f p k v :
  h_frames h !! L = Some f →
  h_dicts h !! f_properties f = Some p →
  __add__ L (FrameFeature_ k v) h
  = (set_dicts <[f_properties f := <[k := v]> p]> (copied f h),
     Return (AFrame (new_frame h))).
Proof.
  intros Hf Hp. unfold __add__. run_with (copy_run _ _ _ Hf). simpl.
  run_with (mret_run (copied f h) k). run_with (mret_run (copied f h) v).
  run_with (properties_run _ _ _ (copied_frames_new f h)).
  assert (Hp' : h_dicts (copied f h) !! f_properties f = Some p) by done.
  by run_with (dict_setitem_run _ _ _ k v Hp').
Qed.

(** [L + FrameFeature(k, v)] sets [k] to [v] in the properties mapping the
    result holds and keeps the other keys of that mapping; no other
    properties mapping, no track mapping and no Track object is changed:
    a FrameFeature never reaches a track, whatever tracks the Frame has. *)
Theorem add_frame_feature_sets_property h L f p k v :
  h_frames h !! L = Some f →
  h_dicts h !! f_properties f = Some p →
  ∃ h' result,
    __add__ L (FrameFeature_ k v) h = (h', Return (AFrame result))
    ∧ h_frames h' !! result = Some f
    ∧ h_dicts h' !! f_properties f = Some (<[k := v]> p)
    ∧ (∀ k', k' ≠ k → <[k := v]> p !! k' = p !! k')
    ∧ (∀ d, d ≠ f_properties f → h_dicts h' !! d = h_dicts h !! d)
    ∧ h_odicts h' = h_odicts h
    ∧ h_tracks h' = h_tracks h.
Proof.
  intros Hf Hp. eexists _, _. split; [by apply add_frame_feature_run|].
  repeat split.
  - apply copied_frames_new.
  - simpl. apply lookup_insert_eq.
  - intros k' Hne. by apply lookup_insert_ne.
  - intros d Hne. simpl. by apply lookup_insert_ne.
Qed.

Lemma add_frame_feature_sets_property_witness :
  ∃ h' result,
    __add__ 1 (FrameFeature_ "title" (SStr "x")) shared_store = (h', Return (AFrame result))
    ∧ h_dicts h' !! 1 = Some (<["title" := SStr "x"]> {[ "width" := SInt 40 ]})
    ∧ h_tracks h' = h_tracks shared_store.
Proof.
  destruct (add_frame_feature_sets_property shared_store 1 (mkFrame 1 1 None)
              {[ "width" := SInt 40 ]} "title" (SStr "x"))
    as (h' & result & E & _ & Ed & _ & _ & _ & Et); [reflexivity | reflexivity |].
  exists h', result. repeat split; assumption.
Defined.

(** On a Frame with at least one track, [L + coverage] appends the
    coverage to the coverages of the last track of the mapping; the
    properties of that track, every other Track object, the properties
    mappings and the track mappings are unchanged. *)
Theorem add_coverage_last_track_only h L f od name lt tr c :
  h_frames h !! L = Some f →
  h_odicts h !! f_tracks f = Some od →
  last od = Some (name, lt) →
  h_tracks h !! lt = Some tr →
  ∃ h' result tr',
    __add__ L (Coverage_ c) h = (h', Return (AFrame result))
    ∧ h_frames h' !! result = Some f
    ∧ h_tracks h' !! lt = Some tr'
    ∧ t_coverages tr' = t_coverages tr ++ [c]
    ∧ t_properties tr' = t_properties tr
    ∧ (∀ t, t ≠ lt → h_tracks h' !! t = h_tracks h !! t)
    ∧ h_dicts h' = h_dicts h
    ∧ h_odicts h' = h_odicts h.
Proof.
  intros Hf Ho Hl Ht.
  exists (set_tracks <[lt := with_coverages [c] tr]> (copied f h)), (new_frame h),
    (with_coverages [c] tr).
  split; [by eapply add_coverage_run|].
  repeat split; simpl.
  - apply copied_frames_new.
  - apply lookup_insert_eq.
  - intros t Hne. by apply lookup_insert_ne.
Qed.

Lemma add_coverage_last_track_only_witness :
  ∃ h' result tr',
    __add__ 1 (Coverage_ 7) two_tracks = (h', Return (AFrame result))
    ∧ h_tracks h' !! 2 = Some tr'
    ∧ t_coverages tr' = [7]
    ∧ h_tracks h' !! 1 = h_tracks two_tracks !! 1.
Proof.
  destruct (add_coverage_last_track_only two_tracks 1 (mkFrame 1 1 None)
              [("XAxis.1", 1); ("BigWig.1", 2)] "BigWig.1" 2 (mkTrack ∅ [] None) 7
              eq_refl eq_refl eq_refl eq_refl)
    as (h' & result & tr' & E & _ & Et & Ec & _ & Hother & _).
  exists h', result, tr'. repeat split; try assumption. by apply Hother.
Defined.

(** On a Frame with at least one track, [L + CoverageStack] appends the
    coverages of the stack, in their order, after the coverages the last
    track of the mapping already has; the properties of that track, every
    other Track object, the properties mappings and the track mappings are
    unchanged.  An empty stack changes no track. *)
Theorem add_coverage_stack_last_track_only h L f od name lt tr cs :
  h_frames h !! L = Some f →
  h_odicts h !! f_tracks f = Some od →
  last od = Some (name, lt) →
  h_tracks h !! lt = Some tr →
  ∃ h' result tr',
    __add__ L (CoverageStack_ cs) h = (h', Return (AFrame result))
    ∧ h_frames h' !! result = Some f
    ∧ h_tracks h' !! lt = Some tr'
    ∧ t_coverages tr' = t_coverages tr ++ cs
    ∧ t_properties tr' = t_properties tr
    ∧ (∀ t, t ≠ lt → h_tracks h' !! t = h_tracks h !! t)
    ∧ (cs = [] → h_tracks h' = h_tracks h)
    ∧ h_dicts h' = h_dicts h
    ∧ h_odicts h' = h_odicts h.
Proof.
  intros Hf Ho Hl Ht.
  exists (set_tracks <[lt := with_coverages cs tr]> (copied f h)), (new_frame h),
    (with_coverages cs tr).
  split; [by eapply add_coverage_stack_run|].
  repeat split; simpl.
  - apply copied_frames_new.
  - apply lookup_insert_eq.
  - intros t Hne. by apply lookup_insert_ne.
  - intros ->. apply insert_id. rewrite Ht. f_equal.
    destruct tr; unfold with_coverages; simpl. by rewrite app_nil_r.
Qed.

Lemma add_coverage_stack_last_track_only_witness :
  ∃ h' result tr',
    __add__ 1 (CoverageStack_ [7; 8]) two_tracks = (h', Return (AFrame result))
    ∧ h_tracks h' !! 2 = Some tr'
    ∧ t_coverages tr' = [7; 8]
    ∧ h_tracks h' !! 1 = h_tracks two_tracks !! 1.
Proof.
  destruct (add_coverage_stack_last_track_only two_tracks 1 (mkFrame 1 1 None)
              [("XAxis.1", 1); ("BigWig.1", 2)] "BigWig.1" 2 (mkTrack ∅ [] None) [7; 8]
              eq_refl eq_refl eq_refl eq_refl)
    as (h' & result & tr' & E & _ & Et & Ec & _ & Hother & _).
  exists h', result, tr'. repeat split; try assumption. by apply Hother.
Defined.

(** * What [__add__] returns *)

(** When [__add__] returns, the value is a Browser exactly for a
    WidgetsPanel, and then the Browser wraps the left operand with the
    panel's two attributes; for every other operand it is a Frame object
    that was not in the store before, with the attributes of the left
    operand.  The left operand itself is never what is returned. *)
Theorem add_result_kind h L f other h' c :
  h_frames h !! L = Some f →
  __add__ L other h = (h', Return c) →
  match c with
  | AFrame result =>
      h_frames h !! result = None ∧ h_frames h' !! result = Some f ∧ result ≠ L
      ∧ isinstance other CWidgetsPanel = false
  | ABrowser b =>
      ∃ r t, other = WidgetsPanel_ r t ∧ b = mkBrowser L r t
  end.
Proof.
  intros Hf E.
  assert (Hframes : frames_kept (copied f h) h').
  { unfold __add__ in E. rewrite (bind_Return _ _ _ _ _ (copy_run _ _ _ Hf)) in E.
    cbn beta in E.
    assert (Hrest : h_frames h' = h_frames (copied f h)); [|by intros a fo; rewrite Hrest].
    revert E. generalize (copied f h) as h1. generalize (new_frame h) as result.
    intros result h1 E.
    match type of E with ?K _ = _ => assert (HK : respects (keeps h_frames) K) end;
      [|by eapply HK].
    clear. unfold_methods. destruct other; simpl;
      repeat first
        [ apply respects_ret; apply _
        | apply respects_raise; apply _
        | apply respects_stuck; apply _
        | apply respects_read; apply _
        | apply respects_modify; by intros ?
        | apply respects_bind; [apply _ | | intros ?]
        | apply respects_for_items_from; [apply _ | intros ? ?]
        | lazymatch goal with
          | |- respects _ (if ?b then _ else _) => destruct b
          | |- respects _ (match ?x with _ => _ end) => destruct x
          end ]. }
  assert (Hkind : match c with
                  | AFrame result =>
                      result = new_frame h ∧ isinstance other CWidgetsPanel = false
                  | ABrowser b => ∃ r t, other = WidgetsPanel_ r t ∧ b = mkBrowser L r t
                  end).
  { unfold __add__ in E. rewrite (bind_Return _ _ _ _ _ (copy_run _ _ _ Hf)) in E.
    cbn beta in E. revert E. generalize (copied f h) as h1. intros h1 E.
    match type of E with
    | ?K _ = _ =>
        assert (HK : yields (λ c, match c with
                                  | AFrame result =>
                                      result = new_frame h
                                      ∧ isinstance other CWidgetsPanel = false
                                  | ABrowser b =>
                                      ∃ r t, other = WidgetsPanel_ r t ∧ b = mkBrowser L r t
                                  end) K)
    end; [|by eapply HK].
    clear. destruct other; simpl;
      repeat first
        [ apply yields_raise
        | apply yields_stuck
        | apply yields_ret; by eauto
        | apply yields_bind; intros ? ]. }
  destruct c as [result|b]; [|done].
  destruct Hkind as [-> Hw]. repeat split; [| |by eapply new_frame_ne|done].
  - apply new_frame_fresh.
  - apply Hframes, copied_frames_new.
Qed.

Lemma add_result_kind_witness :
  h_frames two_tracks !! 2 = None
  ∧ h_frames (__add__ 1 (Coverage_ 7) two_tracks).1 !! 2 = Some (mkFrame 1 1 None)
  ∧ 2 ≠ 1
  ∧ isinstance (Coverage_ 7) CWidgetsPanel = false.
Proof.
  apply (add_result_kind two_tracks 1 (mkFrame 1 1 None) (Coverage_ 7)
           (__add__ 1 (Coverage_ 7) two_tracks).1 (AFrame 2)).
  - reflexivity.
  - vm_compute. reflexivity.
Defined.

(** * How the operators compose *)

Lemma mul_feature_run h L f od k v :
  h_frames h !! L = Some f →
  h_odicts h !! f_tracks f = Some od →
  (∀ t, t ∈ od.*2 → is_Some (h_tracks h !! t)) →
  __mul__ L (Feature_ k v) h
  = (alter_tracks (with_property k v) od (copied f h), Return (AFrame (new_frame h))).
Proof.
  intros Hf Ho Hts. unfold __mul__; simpl. run_with (copy_run _ _ _ Hf).
  assert (Ho' : h_odicts (copied f h) !! f_tracks f = Some od) by done.
  assert (Hts' : ∀ t, t ∈ od.*2 → is_Some (h_tracks (copied f h) !! t)) by done.
  by run_with (add_feature_to_tracks_run _ _ _ _ k v (copied_frames_new f h) Ho' Hts').
Qed.

Lemma mul_coverage_run h L f od c :
  h_frames h !! L = Some f →
  h_odicts h !! f_tracks f = Some od →
  (∀ t, t ∈ od.*2 → is_Some (h_tracks h !! t)) →
  __mul__ L (Coverage_ c) h
  = (alter_tracks (with_coverages [c]) od (copied f h), Return (AFrame (new_frame h))).
Proof.
  intros Hf Ho Hts. unfold __mul__; simpl. run_with (copy_run _ _ _ Hf).
  run_with (mret_run (copied f h) c).
  assert (Ho' : h_odicts (copied f h) !! f_tracks f = Some od) by done.
  assert (Hts' : ∀ t, t ∈ od.*2 → is_Some (h_tracks (copied f h) !! t)) by done.
  by run_with (add_cov_to_tracks_run _ _ _ _ c (copied_frames_new f h) Ho' Hts').
Qed.

Lemma set_tracks_insert_alter g t tr h :
  h_tracks h !! t = Some tr →
  set_tracks <[t := g tr]> h = set_tracks (alter g t) h.
Proof. intros E. unfold set_tracks. by rewrite (insert_as_alter g _ _ _ E). Qed.

(** On a Frame with exactly one track the two operators coincide on a
    Feature and on a Coverage: same store, same new Frame. *)
Theorem add_and_mul_agree_on_one_track h L f name t tr :
  h_frames h !! L = Some f →
  h_odicts h !! f_tracks f = Some [(name, t)] →
  h_tracks h !! t = Some tr →
  (∀ k v, __add__ L (Feature_ k v) h = __mul__ L (Feature_ k v) h)
  ∧ (∀ c, __add__ L (Coverage_ c) h = __mul__ L (Coverage_ c) h).
Proof.
  intros Hf Ho Ht.
  assert (Hts : ∀ t', t' ∈ [(name, t)].*2 → is_Some (h_tracks h !! t')).
  { intros t' ->%list_elem_of_singleton. by eexists. }
  split.
  - intros k v.
    rewrite (add_feature_run h L f _ name t tr k v Hf Ho eq_refl Ht).
    rewrite (mul_feature_run h L f _ k v Hf Ho Hts). simpl.
    by rewrite (set_tracks_insert_alter (with_property k v) t tr).
  - intros c.
    rewrite (add_coverage_run h L f _ name t tr c Hf Ho eq_refl Ht).
    rewrite (mul_coverage_run h L f _ c Hf Ho Hts). simpl.
    by rewrite (set_tracks_insert_alter (with_coverages [c]) t tr).
Qed.

Lemma add_and_mul_agree_on_one_track_witness :
  let h := mkHeap {[ 1 := mkFrame 1 1 None ]} {[ 1 := ∅ ]} {[ 1 := [("XAxis.1", 1)] ]}
                  {[ 1 := mkTrack ∅ [] None ]} [] in
  __add__ 1 (Feature_ "color" (SStr "#66ccff")) h
    = __mul__ 1 (Feature_ "color" (SStr "#66ccff")) h
  ∧ __add__ 1 (Coverage_ 7) h = __mul__ 1 (Coverage_ 7) h.
Proof.
  intros h.
  destruct (add_and_mul_agree_on_one_track h 1 (mkFrame 1 1 None) "XAxis.1" 1
              (mkTrack ∅ [] None) eq_refl eq_refl eq_refl) as [Hfeature Hcov].
  split; [apply Hfeature | apply Hcov].
Defined.

(** The chain [L + Feature(k1, v1) + Feature(k2, v2)] on a Frame with at
    least one track: the second addition works on the Frame returned by the
    first and reaches the same last track. *)
Lemma add_two_features_run h L f od name lt tr k1 v1 k2 v2 :
  h_frames h !! L = Some f →
  h_odicts h !! f_tracks f = Some od →
  last od = Some (name, lt) →
  h_tracks h !! lt = Some tr →
  then_add (__add__ L (Feature_ k1 v1)) (Feature_ k2 v2) h
  = (set_tracks <[lt := with_property k2 v2 (with_property k1 v1 tr)]>
       (copied f (copied f h)),
     Return (AFrame (new_frame (copied f h)))).
Proof.
  intros Hf Ho Hl Ht. unfold then_add.
  run_with (add_feature_run h L f od name lt tr k1 v1 Hf Ho Hl Ht).
  set (h1 := set_tracks <[lt := with_property k1 v1 tr]> (copied f h)).
  assert (Hf1 : h_frames h1 !! new_frame h = Some f) by apply copied_frames_new.
  assert (Ho1 : h_odicts h1 !! f_tracks f = Some od) by done.
  assert (Ht1 : h_tracks h1 !! lt = Some (with_property k1 v1 tr))
    by apply lookup_insert_eq.
  rewrite (add_feature_run h1 (new_frame h) f od name lt _ k2 v2 Hf1 Ho1 Hl Ht1).
  f_equal. unfold h1, copied, set_tracks, set_frames, new_frame; simpl.
  by rewrite insert_insert_eq.
Qed.

(** On a Frame with at least one track, two Features with different keys
    can be added in either order: the chains end in the same store and
    return the same Frame. *)
Theorem add_features_commute h L f od name lt tr k1 v1 k2 v2 :
  h_frames h !! L = Some f →
  h_odicts h !! f_tracks f = Some od →
  last od = Some (name, lt) →
  h_tracks h !! lt = Some tr →
  k1 ≠ k2 →
  then_add (__add__ L (Feature_ k1 v1)) (Feature_ k2 v2) h
  = then_add (__add__ L (Feature_ k2 v2)) (Feature_ k1 v1) h.
Proof.
  intros Hf Ho Hl Ht Hne.
  rewrite (add_two_features_run h L f od name lt tr k1 v1 k2 v2 Hf Ho Hl Ht).
  rewrite (add_two_features_run h L f od name lt tr k2 v2 k1 v1 Hf Ho Hl Ht).
  do 3 f_equal. unfold with_property; simpl. f_equal. by apply insert_insert_ne.
Qed.

Lemma add_features_commute_witness :
  then_add (__add__ 1 (Feature_ "color" (SStr "#66ccff")))
           (Feature_ "title" (SStr "signal")) two_tracks
  = then_add (__add__ 1 (Feature_ "title" (SStr "signal")))
             (Feature_ "color" (SStr "#66ccff")) two_tracks.
Proof.
  apply (add_features_commute two_tracks 1 (mkFrame 1 1 None)
           [("XAxis.1", 1); ("BigWig.1", 2)] "BigWig.1" 2 (mkTrack ∅ [] None)
           "color" (SStr "#66ccff") "title" (SStr "signal"));
    [reflexivity | reflexivity | reflexivity | reflexivity | discriminate].
Defined.

(** Two Features with the same key added in a chain: the last track ends
    with the value of the second, as if the first had not been added; the
    Track objects are those of [L + Feature(k, v2)] alone. *)
Theorem add_feature_last_wins h L f od name lt tr k v1 v2 :
  h_frames h !! L = Some f →
  h_odicts h !! f_tracks f = Some od →
  last od = Some (name, lt) →
  h_tracks h !! lt = Some tr →
  h_tracks (then_add (__add__ L (Feature_ k v1)) (Feature_ k v2) h).1
  = h_tracks (__add__ L (Feature_ k v2) h).1.
Proof.
  intros Hf Ho Hl Ht.
  rewrite (add_two_features_run h L f od name lt tr k v1 k v2 Hf Ho Hl Ht).
  rewrite (add_feature_run h L f od name lt tr k v2 Hf Ho Hl Ht). simpl.
  f_equal. unfold with_property; simpl. by rewrite insert_insert_eq.
Qed.

Lemma add_feature_last_wins_witness :
  h_tracks (then_add (__add__ 1 (Feature_ "color" (SStr "#66ccff")))
                     (Feature_ "color" (SStr "#ff9c9c")) two_tracks).1
  = h_tracks (__add__ 1 (Feature_ "color" (SStr "#ff9c9c")) two_tracks).1.
Proof.
  apply (add_feature_last_wins two_tracks 1 (mkFrame 1 1 None)
           [("XAxis.1", 1); ("BigWig.1", 2)] "BigWig.1" 2 (mkTrack ∅ [] None)
           "color" (SStr "#66ccff") (SStr "#ff9c9c")); reflexivity.
Defined.

Lemma iter_with_property_eq k v n tr :
  0 < n → Nat.iter n (with_property k v) tr = with_property k v tr.
Proof.
  induction n as [|[|n] IH]; [lia | done |]. intros _.
  change (Nat.iter (S (S n)) (with_property k v) tr)
    with (with_property k v (Nat.iter (S n) (with_property k v) tr)).
  rewrite IH by lia. unfold with_property; simpl. by rewrite insert_insert_eq.
Qed.

(** The chain [L * X * X] for a Feature or a Coverage [X]. *)
Lemma mul_twice_run h L f od (other : operand) (g : Track → Track) :
  h_frames h !! L = Some f →
  h_odicts h !! f_tracks f = Some od →
  (∀ t, t ∈ od.*2 → is_Some (h_tracks h !! t)) →
  (∀ h L, h_frames h !! L = Some f → h_odicts h !! f_tracks f = Some od →
          (∀ t, t ∈ od.*2 → is_Some (h_tracks h !! t)) →
          __mul__ L other h = (alter_tracks g od (copied f h), Return (AFrame (new_frame h)))) →
  ∀ t, h_tracks (then_mul (__mul__ L other) other h).1 !! t
       = Nat.iter (occurrences t od) g
           <$> (Nat.iter (occurrences t od) g <$> h_tracks h !! t).
Proof.
  intros Hf Ho Hts Hrun t. unfold then_mul.
  run_with (Hrun h L Hf Ho Hts).
  set (h1 := alter_tracks g od (copied f h)).
  assert (Hf1 : h_frames h1 !! new_frame h = Some f).
  { unfold h1. rewrite alter_tracks_frames. apply copied_frames_new. }
  assert (Ho1 : h_odicts h1 !! f_tracks f = Some od).
  { unfold h1. by rewrite alter_tracks_odicts. }
  assert (Hts1 : ∀ t', t' ∈ od.*2 → is_Some (h_tracks h1 !! t')).
  { intros t' Hin. unfold h1. rewrite alter_tracks_lookup. simpl.
    destruct (Hts t' Hin) as [tr ->]. by eexists. }
  rewrite (Hrun h1 (new_frame h) Hf1 Ho1 Hts1). simpl.
  rewrite alter_tracks_lookup. simpl. unfold h1. by rewrite alter_tracks_lookup.
Qed.

(** Scaling twice by the same Feature leaves the tracks as scaling once
    does: [L * Feature * Feature] and [L * Feature] end with the same Track
    objects. *)
Theorem mul_feature_idempotent h L f od k v :
  h_frames h !! L = Some f →
  h_odicts h !! f_tracks f = Some od →
  Forall (λ t, is_Some (h_tracks h !! t)) od.*2 →
  h_tracks (then_mul (__mul__ L (Feature_ k v)) (Feature_ k v) h).1
  = h_tracks (__mul__ L (Feature_ k v) h).1.
Proof.
  intros Hf Ho Hts. rewrite Forall_forall in Hts. apply map_eq; intros t.
  rewrite (mul_twice_run h L f od (Feature_ k v) (with_property k v) Hf Ho Hts)
    by (intros; by apply mul_feature_run).
  rewrite (mul_feature_run h L f od k v Hf Ho Hts). simpl.
  rewrite alter_tracks_lookup. simpl.
  destruct (h_tracks h !! t) as [tr|]; simpl; [|done]. f_equal.
  destruct (occurrences t od) as [|n] eqn:En; [done|].
  rewrite !iter_with_property_eq by lia.
  unfold with_property; simpl. by rewrite insert_insert_eq.
Qed.

Lemma mul_feature_idempotent_witness :
  h_tracks (then_mul (__mul__ 1 (Feature_ "color" (SStr "#ff9c9c")))
                     (Feature_ "color" (SStr "#ff9c9c")) two_tracks).1
  = h_tracks (__mul__ 1 (Feature_ "color" (SStr "#ff9c9c")) two_tracks).1.
Proof.
  apply (mul_feature_idempotent two_tracks 1 (mkFrame 1 1 None)
           [("XAxis.1", 1); ("BigWig.1", 2)] "color" (SStr "#ff9c9c"));
    [reflexivity | reflexivity | repeat constructor; by eexists].
Defined.

(** Scaling twice by the same Coverage attaches it twice: after
    [L * cov * cov] every track of [L] has the coverage two times more (per
    entry of the mapping that holds the track) at the end of its
    coverages. *)
Theorem mul_coverage_accumulates h L f od c t tr :
  h_frames h !! L = Some f →
  h_odicts h !! f_tracks f = Some od →
  Forall (λ t, is_Some (h_tracks h !! t)) od.*2 →
  t ∈ od.*2 →
  h_tracks h !! t = Some tr →
  ∃ tr',
    h_tracks (then_mul (__mul__ L (Coverage_ c)) (Coverage_ c) h).1 !! t = Some tr'
    ∧ t_coverages tr' = t_coverages tr ++ replicate (2 * occurrences t od) c
    ∧ 0 < occurrences t od
    ∧ t_properties tr' = t_properties tr.
Proof.
  intros Hf Ho Hts Hin Ht. rewrite Forall_forall in Hts.
  rewrite (mul_twice_run h L f od (Coverage_ c) (with_coverages [c]) Hf Ho Hts)
    by (intros; by apply mul_coverage_run).
  rewrite Ht. simpl. eexists. split; [done|].
  destruct (iter_with_coverages c (occurrences t od) tr) as [Ep Ec].
  destruct (iter_with_coverages c (occurrences t od)
              (Nat.iter (occurrences t od) (with_coverages [c]) tr)) as [Ep' Ec'].
  rewrite Ec', Ep', Ec, Ep. repeat split; [|by apply occurrences_pos].
  rewrite <- (assoc_L (++)), <- replicate_add. f_equal. f_equal. lia.
Qed.

Lemma mul_coverage_accumulates_witness :
  ∃ tr',
    h_tracks (then_mul (__mul__ 1 (Coverage_ 7)) (Coverage_ 7) two_tracks).1 !! 2
    = Some tr'
    ∧ t_coverages tr' = [7; 7].
Proof.
  destruct (mul_coverage_accumulates two_tracks 1 (mkFrame 1 1 None)
              [("XAxis.1", 1); ("BigWig.1", 2)] 7 2 (mkTrack ∅ [] None))
    as (tr' & E & Ec & _);
    [reflexivity | reflexivity | repeat constructor; by eexists
    | compute_done | reflexivity |].
  exists tr'. split; [exact E | exact Ec].
Defined.

(** * The assertion of [add_feature_to_tracks] *)

Lemma raises_bind {A B} (P : exn → Prop) (m : M A) (k : A → M B) :
  raises_only P m → (∀ a, raises_only P (k a)) → raises_only P (m ≫= k).
Proof.
  intros Hm Hk h h' e. unfold mbind, M_bind.
  destruct (m h) as [h1 [a|e'|]] eqn:E; [by apply Hk | | done].
  intros [= <- <-]. by eapply Hm.
Qed.

Lemma raises_ret {A} (P : exn → Prop) (a : A) : raises_only P (mret a : M A).
Proof. by intros h h' e. Qed.

Lemma raises_stuck {A} (P : exn → Prop) : raises_only P (stuck : M A).
Proof. by intros h h' e. Qed.

Lemma raises_raise {A} (P : exn → Prop) e : P e → raises_only P (raise e : M A).
Proof. by intros He h h' e' [= _ <-]. Qed.

Lemma raises_read {A} (P : exn → Prop) (sel : heap → option A) : raises_only P (read sel).
Proof. intros h h' e. unfold read. by destruct (sel h). Qed.

Lemma raises_modify (P : exn → Prop) f : raises_only P (modify f).
Proof. by intros h h' e. Qed.

Lemma raises_new_frame_address (P : exn → Prop) : raises_only P new_frame_address.
Proof. by intros h h' e. Qed.

Lemma raises_for_items_from {A} (P : exn → Prop) d began rest
    (body : string * loc → A → M A) acc :
  P (RuntimeError "OrderedDict mutated during iteration") →
  (∀ item acc, raises_only P (body item acc)) →
  raises_only P (for_items_from d began rest body acc).
Proof.
  intros Hit Hbody h h' e [->|(item & acc1 & h1 & h2 & E)]%for_items_from_Raise;
    [done | by eapply Hbody].
Qed.

(** Handed something that is not a Feature, [add_feature_to_tracks] fails
    its assertion before it looks at the Frame: the store is untouched,
    whatever it holds.  Through [__mul__] the assertion is never what
    fails: whatever the operand and the store, [__mul__] does not raise an
    [AssertionError]. *)
Theorem add_feature_to_tracks_asserts h self feature :
  (isinstance feature CFeature = false →
     add_feature_to_tracks self feature h
     = (h, Raise (AssertionError "feature must a Feature object.")))
  ∧ ∀ h' msg, __mul__ self feature h ≠ (h', Raise (AssertionError msg)).
Proof.
  split; [intros E; unfold add_feature_to_tracks; by rewrite E|].
  intros h' msg E.
  assert (H : raises_only (λ e, ∀ msg, e ≠ AssertionError msg) (__mul__ self feature));
    [|by eapply H].
  clear. unfold __mul__, copy. unfold_methods.
  destruct feature; simpl;
    repeat first
      [ apply raises_ret
      | apply raises_stuck
      | apply raises_read
      | apply raises_modify
      | apply raises_new_frame_address
      | apply raises_raise; by intros ?
      | apply raises_bind; [|intros ?]
      | apply raises_for_items_from; [by intros ? | intros ? ?]
      | lazymatch goal with
        | |- raises_only _ (if ?b then _ else _) => destruct b
        | |- raises_only _ (match ?x with _ => _ end) => destruct x
        end ].
Qed.

Lemma add_feature_to_tracks_asserts_witness :
  add_feature_to_tracks 1 (Coverage_ 7) two_tracks
  = (two_tracks, Raise (AssertionError "feature must a Feature object.")).
Proof.
  destruct (add_feature_to_tracks_asserts two_tracks 1 (Coverage_ 7)) as [H _].
  apply H. reflexivity.
Defined.

(** * Ranges *)

Lemma modify_run h g : modify g h = (g h, Return tt).
Proof. done. Qed.

Section RangeProofs.

Variable parse_region : string → option GenomeRange.

(** A range literal handed to [fetch_data] is parsed whether or not the
    Frame has a [current_range]: a literal the parser rejects raises the
    parser's error with the store untouched and no track asked, and a
    literal it accepts is as good as the [GenomeRange] it stands for. *)
Theorem fetch_data_literal h L s :
  (parse_region s = None →
     fetch_data parse_region L (Some (RangeStr s)) h = (h, Raise (ParseError s)))
  ∧ (∀ r, parse_region s = Some r →
       fetch_data parse_region L (Some (RangeStr s)) h
       = fetch_data parse_region L (Some (RangeObj r)) h).
Proof.
  split.
  - intros E. unfold fetch_data. run_with (mret_run h (Some (RangeStr s))).
    unfold GenomeRange_of_string. by rewrite E.
  - intros r E. unfold fetch_data. run_with (mret_run h (Some (RangeStr s))).
    run_with (mret_run h (Some (RangeObj r))).
    unfold GenomeRange_of_string. by rewrite E.
Qed.

Lemma goto_run h self f g r :
  h_frames h !! self = Some f →
  resolved parse_region None (Some g) = Some r →
  goto parse_region self g h
  = (set_frames <[self := mkFrame (f_properties f) (f_tracks f) (Some r)]> h, Return tt).
Proof.
  intros Hf Hr. unfold goto.
  assert (E : (match g with
               | RangeObj r0 => mret r0
               | RangeStr s => GenomeRange_of_string parse_region s
               end : M GenomeRange) h = (h, Return r)).
  { destruct g as [s|r0]; simpl in Hr.
    - unfold GenomeRange_of_string. by rewrite Hr.
    - by injection Hr as ->. }
  run_with E. by run_with (frame_at_run _ _ _ Hf).
Qed.

(** After [goto] with a range that resolves, [fetch_data()] without an
    argument is [fetch_data] with that range; the Frame keeps its two
    mappings, and every other Frame object, those copied from it by an
    earlier [+] or [*] included, keeps the range it had. *)
Theorem goto_then_fetch_data h self f g r :
  h_frames h !! self = Some f →
  resolved parse_region None (Some g) = Some r →
  ∃ h',
    goto parse_region self g h = (h', Return tt)
    ∧ h_frames h' !! self = Some (mkFrame (f_properties f) (f_tracks f) (Some r))
    ∧ (∀ a, a ≠ self → h_frames h' !! a = h_frames h !! a)
    ∧ h_dicts h' = h_dicts h ∧ h_odicts h' = h_odicts h ∧ h_tracks h' = h_tracks h
    ∧ fetch_data parse_region self None h'
      = fetch_data parse_region self (Some (RangeObj r)) h'.
Proof.
  intros Hf Hr. eexists. split; [by apply goto_run|].
  assert (Hf' : h_frames (set_frames
                   <[self := mkFrame (f_properties f) (f_tracks f) (Some r)]> h) !! self
                = Some (mkFrame (f_properties f) (f_tracks f) (Some r)))
    by apply lookup_insert_eq.
  repeat split; try done.
  - intros a Hne. simpl. by apply lookup_insert_ne.
  - unfold fetch_data.
    assert (E : (f0 ← frame_at self; mret (RangeObj <$> current_range f0))
                  (set_frames <[self := mkFrame (f_properties f) (f_tracks f) (Some r)]> h)
                = (set_frames <[self := mkFrame (f_properties f) (f_tracks f) (Some r)]> h,
                   Return (Some (RangeObj r))))
      by by run_with (frame_at_run _ _ _ Hf').
    by run_with E.
Qed.

(** [goto] and [__init__] with a literal the parser rejects raise the
    parser's error and change nothing: the Frame keeps the range it had,
    and [__init__] has not bound [properties] yet. *)
Theorem rejected_literal_changes_nothing h self properties_dict s :
  parse_region s = None →
  goto parse_region self (RangeStr s) h = (h, Raise (ParseError s))
  ∧ __init__ parse_region self properties_dict (Some (RangeStr s)) h
    = (h, Raise (ParseError s)).
Proof.
  intros E. unfold goto, __init__, GenomeRange_of_string. rewrite E. split; [done|].
  by unfold mbind, M_bind, raise.
Qed.

(** [__init__] without the keyword [genome_range] leaves the Frame with no
    range, so that [fetch_data()] raises the missing-range error until a
    range is given; with the keyword, [fetch_data()] is [fetch_data] with
    the range the keyword resolves to.  In both cases [properties] is bound
    to the very dictionary handed in, not to a copy. *)
Theorem init_then_fetch_data h self f properties_dict genome_range :
  h_frames h !! self = Some f →
  (genome_range = None ∨ is_Some (resolved parse_region None genome_range)) →
  ∃ h',
    __init__ parse_region self properties_dict genome_range h = (h', Return tt)
    ∧ h_frames h' !! self
      = Some (mkFrame properties_dict (f_tracks f) (resolved parse_region None genome_range))
    ∧ properties self h' = (h', Return properties_dict)
    ∧ fetch_data parse_region self None h'
      = match resolved parse_region None genome_range with
        | Some r => fetch_data parse_region self (Some (RangeObj r)) h'
        | None => (h', Raise MissingRange)
        end.
Proof.
  intros Hf Hres.
  set (cur := resolved parse_region None genome_range).
  set (h1 := set_frames <[self := mkFrame (f_properties f) (f_tracks f) cur]> h).
  set (h2 := set_frames <[self := mkFrame properties_dict (f_tracks f) cur]> h1).
  assert (Hf2 : h_frames h2 !! self = Some (mkFrame properties_dict (f_tracks f) cur))
    by apply lookup_insert_eq.
  exists h2. split; [|split; [done|split]].
  - unfold __init__.
    assert (E : (match genome_range with
                 | Some (RangeObj r) => mret (Some r)
                 | Some (RangeStr s) =>
                     r ← GenomeRange_of_string parse_region s; mret (Some r)
                 | None => mret None
                 end : M (option GenomeRange)) h = (h, Return cur)).
    { unfold cur. destruct genome_range as [[s|r]|]; simpl; [|done|done].
      destruct Hres as [?|[r Hr]]; [done|]. simpl in Hr.
      unfold GenomeRange_of_string. by rewrite Hr. }
    run_with E. run_with (frame_at_run _ _ _ Hf).
    assert (Hf1 : h_frames h1 !! self = Some (mkFrame (f_properties f) (f_tracks f) cur))
      by apply lookup_insert_eq.
    run_with (modify_run h (set_frames
                <[self := mkFrame (f_properties f) (f_tracks f) cur]>)).
    by run_with (frame_at_run _ _ _ Hf1).
  - by rewrite (properties_run _ _ _ Hf2).
  - unfold fetch_data.
    assert (E : (f0 ← frame_at self; mret (RangeObj <$> current_range f0)) h2
                = (h2, Return (RangeObj <$> cur)))
      by by run_with (frame_at_run _ _ _ Hf2).
    run_with E. by destruct cur.
Qed.

End RangeProofs.

Lemma goto_then_fetch_data_witness :
  ∃ h',
    goto (λ _, None) 1 (RangeObj chr1_1000_2000) fetch_store = (h', Return tt)
    ∧ h_frames h' !! 1 = Some (mkFrame 1 1 (Some chr1_1000_2000))
    ∧ fetch_data (λ _, None) 1 None h'
      = fetch_data (λ _, None) 1 (Some (RangeObj chr1_1000_2000)) h'.
Proof.
  destruct (goto_then_fetch_data (λ _, None) fetch_store 1 (mkFrame 1 1 None)
              (RangeObj chr1_1000_2000) chr1_1000_2000 eq_refl eq_refl)
    as (h' & E & Ef & _ & _ & _ & _ & Efetch).
  exists h'. repeat split; assumption.
Defined.

Lemma rejected_literal_changes_nothing_witness :
  goto (λ _, None) 1 (RangeStr "chr1") fetch_store = (fetch_store, Raise (ParseError "chr1"))
  ∧ __init__ (λ _, None) 1 7 (Some (RangeStr "chr1")) fetch_store
    = (fetch_store, Raise (ParseError "chr1")).
Proof.
  apply (rejected_literal_changes_nothing (λ _, None) fetch_store 1 7 "chr1"). reflexivity.
Defined.

Lemma init_then_fetch_data_witness :
  ∃ h',
    __init__ (λ _, None) 1 7 None
      (mkHeap {[ 1 := mkFrame 1 1 (Some chr1_1000_2000) ]} {[ 7 := ∅ ]} {[ 1 := [] ]} ∅ [])
    = (h', Return tt)
    ∧ h_frames h' !! 1 = Some (mkFrame 7 1 None)
    ∧ fetch_data (λ _, None) 1 None h' = (h', Raise MissingRange).
Proof.
  destruct (init_then_fetch_data (λ _, None)
              (mkHeap {[ 1 := mkFrame 1 1 (Some chr1_1000_2000) ]} {[ 7 := ∅ ]}
                      {[ 1 := [] ]} ∅ [])
              1 (mkFrame 1 1 (Some chr1_1000_2000)) 7 None)
    as (h' & E & Ef & _ & Efetch); [reflexivity | by left |].
  exists h'. repeat split; assumption.
Defined.

(** * Value ranges *)

Lemma alter_tracks_by_frames g od h : h_frames (alter_tracks_by g od h) = h_frames h.
Proof. revert h. induction od as [|item od IH]; intros h; simpl; [done|]. by rewrite IH. Qed.

Lemma alter_tracks_by_dicts g od h : h_dicts (alter_tracks_by g od h) = h_dicts h.
Proof. revert h. induction od as [|item od IH]; intros h; simpl; [done|]. by rewrite IH. Qed.

Lemma alter_tracks_by_odicts g od h : h_odicts (alter_tracks_by g od h) = h_odicts h.
Proof. revert h. induction od as [|item od IH]; intros h; simpl; [done|]. by rewrite IH. Qed.

Lemma alter_tracks_by_lookup g od h t :
  h_tracks (alter_tracks_by g od h) !! t
  = Nat.iter (occurrences t od) (g t) <$> h_tracks h !! t.
Proof.
  revert h. unfold occurrences.
  induction od as [|[n t'] od IH]; intros h.
  - simpl. by destruct (h_tracks h !! t).
  - change (alter_tracks_by g ((n, t') :: od) h)
      with (alter_tracks_by g od (set_tracks (alter (g t') t') h)).
    rewrite IH. simpl.
    destruct (decide (t' = t)) as [->|Hne].
    + rewrite filter_cons_True by done. rewrite lookup_alter_eq.
      destruct (h_tracks h !! t); simpl; [|done].
      f_equal. symmetry. apply Nat.iter_succ_r.
    + rewrite filter_cons_False by done. by rewrite lookup_alter_ne.
Qed.

Lemma for_values_alter_by_run (g : loc → Track → Track) (body : loc → M unit) d od h :
  h_odicts h !! d = Some od →
  (∀ t, t ∈ od.*2 → is_Some (h_tracks h !! t)) →
  (∀ t tr h', h_tracks h' !! t = Some tr →
     body t h' = (set_tracks (alter (g t) t) h', Return tt)) →
  for_values d body h = (alter_tracks_by g od h, Return tt).
Proof.
  intros Hd Hts Hbody. unfold for_values.
  pose (P := λ h' : heap, h_odicts h' = h_odicts h
                          ∧ ∀ t, t ∈ od.*2 → is_Some (h_tracks h' !! t)).
  destruct (for_items_run P d od (λ item (_ : unit), body item.2)
              (λ item h', set_tracks (alter (g item.2) item.2) h') (λ _ a, a))
    with (h := h) (acc := tt) as [E _].
  - intros h' [Eo _]. by rewrite Eo.
  - intros [n t] [] h' Hin [Eo Hall]. simpl.
    destruct (Hall t) as [tr Etr]; [by apply (list_elem_of_fmap_2 snd _ (n, t))|].
    rewrite (Hbody _ _ _ Etr).
    split; [done|]. split; [done|].
    intros t0 Hin0. simpl. apply lookup_alter_is_Some. auto.
  - by split.
  - rewrite E. f_equal. f_equal. clear. by induction od.
Qed.

Lemma set_min_max_run h t tr min_ max_ :
  h_tracks h !! t = Some tr →
  (_ ← track_setitem t "min_value" min_; track_setitem t "max_value" max_) h
  = (set_tracks <[t := with_min_max min_ max_ tr]> h, Return tt).
Proof.
  intros E. run_with (track_setitem_run _ _ _ "min_value" min_ E).
  assert (E' : h_tracks (set_tracks <[t := with_property "min_value" min_ tr]> h) !! t
               = Some (with_property "min_value" min_ tr)) by apply lookup_insert_eq.
  rewrite (track_setitem_run _ _ _ "max_value" max_ E').
  f_equal. unfold set_tracks; simpl. by rewrite insert_insert_eq.
Qed.

Lemma with_min_max_idempotent min_ max_ tr :
  with_min_max min_ max_ (with_min_max min_ max_ tr) = with_min_max min_ max_ tr.
Proof.
  unfold with_min_max, with_property; simpl. f_equal.
  rewrite (insert_insert_ne _ "min_value" "max_value") by done.
  by rewrite !insert_insert_eq.
Qed.

Lemma iter_with_min_max min_ max_ n tr :
  0 < n → Nat.iter n (with_min_max min_ max_) tr = with_min_max min_ max_ tr.
Proof.
  induction n as [|[|n] IH]; [lia | done |]. intros _.
  change (Nat.iter (S (S n)) (with_min_max min_ max_) tr)
    with (with_min_max min_ max_ (Nat.iter (S n) (with_min_max min_ max_) tr)).
  rewrite IH by lia. apply with_min_max_idempotent.
Qed.

Lemma set_tracks_alter_id t h : set_tracks (alter (λ tr, tr) t) h = h.
Proof. destruct h. unfold set_tracks; simpl. f_equal. by apply alter_id. Qed.

Section MinMaxProofs.

Variable is_BedGraph is_BigWig : loc → bool.

(** A call that names a track which is not in the Frame, or one which has
    no min_value property yet, changes nothing and raises nothing, whatever
    the class of the track; only the first of the two logs a warning, and
    the warning holds the placeholder, not the name. *)
Theorem set_tracks_min_max_named_noop h self f od min_ max_ name :
  h_frames h !! self = Some f →
  h_odicts h !! f_tracks f = Some od →
  (od_get od name = None →
     set_tracks_min_max is_BedGraph is_BigWig self min_ max_ (Some name) h
     = (h, Return ["Track {name} not in frame"]))
  ∧ (∀ t tr, od_get od name = Some t → h_tracks h !! t = Some tr →
       t_properties tr !! "min_value" = None →
       set_tracks_min_max is_BedGraph is_BigWig self min_ max_ (Some name) h
       = (h, Return [])).
Proof.
  intros Hf Ho. split.
  - intros E. unfold set_tracks_min_max.
    run_with (tracks_run _ _ _ Hf). run_with (odict_at_run _ _ _ Ho). by rewrite E.
  - intros t tr E Et Hp. unfold set_tracks_min_max.
    run_with (tracks_run _ _ _ Hf). run_with (odict_at_run _ _ _ Ho). rewrite E.
    run_with (track_at_run _ _ _ Et). rewrite decide_False; [done|].
    rewrite Hp. by intros [? ?].
Qed.

(** A call that names a track of the Frame which has a min_value property
    sets min_value and max_value on that track (max_value also when the
    track had none), whatever its class; the other properties and the
    coverages of the track, and every other Track object, are unchanged. *)
Theorem set_tracks_min_max_named h self f od min_ max_ name t tr :
  h_frames h !! self = Some f →
  h_odicts h !! f_tracks f = Some od →
  od_get od name = Some t →
  h_tracks h !! t = Some tr →
  is_Some (t_properties tr !! "min_value") →
  ∃ h' tr',
    set_tracks_min_max is_BedGraph is_BigWig self min_ max_ (Some name) h
    = (h', Return [])
    ∧ h_tracks h' !! t = Some tr'
    ∧ t_properties tr' !! "min_value" = Some min_
    ∧ t_properties tr' !! "max_value" = Some max_
    ∧ (∀ k, k ≠ "min_value" → k ≠ "max_value" →
         t_properties tr' !! k = t_properties tr !! k)
    ∧ t_coverages tr' = t_coverages tr
    ∧ (∀ t', t' ≠ t → h_tracks h' !! t' = h_tracks h !! t')
    ∧ h_frames h' = h_frames h ∧ h_dicts h' = h_dicts h ∧ h_odicts h' = h_odicts h.
Proof.
  intros Hf Ho E Et Hp.
  exists (set_tracks <[t := with_min_max min_ max_ tr]> h), (with_min_max min_ max_ tr).
  split.
  - unfold set_tracks_min_max.
    run_with (tracks_run _ _ _ Hf). run_with (odict_at_run _ _ _ Ho). rewrite E.
    run_with (track_at_run _ _ _ Et). rewrite decide_True by done.
    assert (E2 : (_ ← track_setitem t "min_value" min_;
                  track_setitem t "max_value" max_) h
                 = (set_tracks <[t := with_min_max min_ max_ tr]> h, Return tt))
      by by apply set_min_max_run.
    unfold mbind, M_bind in E2 |- *.
    destruct (track_setitem t "min_value" min_ h) as [h1 [[]|e|]]; [|done|done].
    by rewrite E2.
  - repeat split; simpl.
    + apply lookup_insert_eq.
    + by rewrite lookup_insert_ne, lookup_insert_eq.
    + apply lookup_insert_eq.
    + intros k H1 H2. by rewrite !lookup_insert_ne.
    + intros t' Hne. by apply lookup_insert_ne.
Qed.

(** A call without a name sets min_value and max_value on every track of
    the Frame that is a BedGraph or a BigWig, whether or not it had the
    properties, and leaves the other properties and the coverages of these
    tracks alone; tracks of another class, and Track objects outside the
    Frame, are unchanged.  Nothing is logged. *)
Theorem set_tracks_min_max_all h self f od min_ max_ :
  h_frames h !! self = Some f →
  h_odicts h !! f_tracks f = Some od →
  Forall (λ t, is_Some (h_tracks h !! t)) od.*2 →
  ∃ h',
    set_tracks_min_max is_BedGraph is_BigWig self min_ max_ None h = (h', Return [])
    ∧ (∀ t tr, t ∈ od.*2 → is_BedGraph t || is_BigWig t = true →
         h_tracks h !! t = Some tr →
         h_tracks h' !! t = Some (with_min_max min_ max_ tr))
    ∧ (∀ t, is_BedGraph t || is_BigWig t = false → h_tracks h' !! t = h_tracks h !! t)
    ∧ (∀ t, t ∉ od.*2 → h_tracks h' !! t = h_tracks h !! t)
    ∧ h_frames h' = h_frames h ∧ h_dicts h' = h_dicts h ∧ h_odicts h' = h_odicts h.
Proof.
  intros Hf Ho Hts. rewrite Forall_forall in Hts.
  pose (g := λ t : loc, if is_BedGraph t || is_BigWig t
                        then with_min_max min_ max_ else λ tr, tr).
  exists (alter_tracks_by g od h). split.
  - unfold set_tracks_min_max. run_with (tracks_run _ _ _ Hf).
    assert (E : for_values (f_tracks f) (λ track,
                  if is_BedGraph track || is_BigWig track
                  then _ ← track_setitem track "min_value" min_;
                       track_setitem track "max_value" max_
                  else mret tt) h
                = (alter_tracks_by g od h, Return tt)).
    { apply for_values_alter_by_run; [done..|].
      intros t tr h' Et. unfold g. destruct (is_BedGraph t || is_BigWig t).
      - rewrite (set_min_max_run _ _ _ min_ max_ Et).
        by rewrite (set_tracks_insert_alter (with_min_max min_ max_) t tr).
      - by rewrite set_tracks_alter_id. }
    by run_with E.
  - rewrite alter_tracks_by_frames, alter_tracks_by_dicts, alter_tracks_by_odicts.
    repeat split; try done.
    + intros t tr Hin Hcls Et. rewrite alter_tracks_by_lookup, Et. simpl.
      unfold g. rewrite Hcls. f_equal.
      by apply iter_with_min_max, occurrences_pos.
    + intros t Hcls. rewrite alter_tracks_by_lookup. unfold g. rewrite Hcls.
      destruct (h_tracks h !! t) as [tr|]; simpl; [|done]. f_equal.
      induction (occurrences t od) as [|n IH]; [done|]. by simpl.
    + intros t Hnot. rewrite alter_tracks_by_lookup, occurrences_zero by done.
      by destruct (h_tracks h !! t).
Qed.

End MinMaxProofs.

Lemma set_tracks_min_max_named_noop_witness :
  set_tracks_min_max (λ _, false) (λ t, bool_decide (t ≠ 1)) 1 (SInt (-10)) (SInt 10)
    (Some "BedGraph.1") signal_store
  = (signal_store, Return ["Track {name} not in frame"])
  ∧ set_tracks_min_max (λ _, false) (λ t, bool_decide (t ≠ 1)) 1 (SInt (-10)) (SInt 10)
      (Some "BigWig.1") signal_store
    = (signal_store, Return []).
Proof.
  destruct (set_tracks_min_max_named_noop (λ _, false) (λ t, bool_decide (t ≠ 1))
              signal_store 1 (mkFrame 1 1 None)
              [("XAxis.1", 1); ("BigWig.1", 2); ("BigWig.2", 3)]
              (SInt (-10)) (SInt 10) "BedGraph.1" eq_refl eq_refl) as [Habsent _].
  destruct (set_tracks_min_max_named_noop (λ _, false) (λ t, bool_decide (t ≠ 1))
              signal_store 1 (mkFrame 1 1 None)
              [("XAxis.1", 1); ("BigWig.1", 2); ("BigWig.2", 3)]
              (SInt (-10)) (SInt 10) "BigWig.1" eq_refl eq_refl) as [_ Hplain].
  split.
  - apply Habsent. reflexivity.
  - apply (Hplain 2 (mkTrack ∅ [] None)); reflexivity.
Defined.

Lemma set_tracks_min_max_named_witness :
  ∃ h' tr',
    set_tracks_min_max (λ _, false) (λ t, bool_decide (t ≠ 1)) 1 (SInt (-10)) (SInt 10)
      (Some "BigWig.2") signal_store
    = (h', Return [])
    ∧ h_tracks h' !! 3 = Some tr'
    ∧ t_properties tr' !! "min_value" = Some (SInt (-10))
    ∧ t_properties tr' !! "max_value" = Some (SInt 10)
    ∧ t_coverages tr' = [7]
    ∧ h_tracks h' !! 2 = h_tracks signal_store !! 2.
Proof.
  destruct (set_tracks_min_max_named (λ _, false) (λ t, bool_decide (t ≠ 1))
              signal_store 1 (mkFrame 1 1 None)
              [("XAxis.1", 1); ("BigWig.1", 2); ("BigWig.2", 3)]
              (SInt (-10)) (SInt 10) "BigWig.2" 3 (mkTrack {[ "min_value" := SInt 0 ]} [7] None))
    as (h' & tr' & E & Et & Emin & Emax & _ & Ec & Hother & _);
    [reflexivity | reflexivity | reflexivity | reflexivity | by eexists |].
  exists h', tr'. repeat split; try assumption. by apply Hother.
Defined.

Lemma set_tracks_min_max_all_witness :
  ∃ h',
    set_tracks_min_max (λ _, false) (λ t, bool_decide (t ≠ 1)) 1 (SInt (-10)) (SInt 10)
      None signal_store
    = (h', Return [])
    ∧ h_tracks h' !! 2 = Some (with_min_max (SInt (-10)) (SInt 10) (mkTrack ∅ [] None))
    ∧ h_tracks h' !! 1 = h_tracks signal_store !! 1.
Proof.
  destruct (set_tracks_min_max_all (λ _, false) (λ t, bool_decide (t ≠ 1))
              signal_store 1 (mkFrame 1 1 None)
              [("XAxis.1", 1); ("BigWig.1", 2); ("BigWig.2", 3)]
              (SInt (-10)) (SInt 10))
    as (h' & E & Hsig & Hplain & _);
    [reflexivity | reflexivity | repeat constructor; by eexists |].
  exists h'. split; [exact E|]. split.
  - apply Hsig; [compute_done | reflexivity | reflexivity].
  - apply Hplain. reflexivity.
Defined.

(** * Adding a Frame without tracks *)

(** [L + R] for a Frame [R] without tracks adds no track and merges the
    properties of [R] into those of the result, [R] winning on a common
    key; this holds whatever mappings the two Frames share, [L + L] for an
    empty [L] included. *)
Theorem add_empty_frame_merges_properties h L R fL fR pL pR :
  h_frames h !! L = Some fL →
  h_frames h !! R = Some fR →
  h_odicts h !! f_tracks fR = Some [] →
  h_dicts h !! f_properties fL = Some pL →
  h_dicts h !! f_properties fR = Some pR →
  ∃ h' result,
    __add__ L (Frame_ R) h = (h', Return (AFrame result))
    ∧ h_frames h' !! result = Some fL
    ∧ h_dicts h' !! f_properties fL = Some (pR ∪ pL)
    ∧ (∀ k v, pR !! k = Some v → (pR ∪ pL) !! k = Some v)
    ∧ (∀ k, pR !! k = None → (pR ∪ pL) !! k = pL !! k)
    ∧ h_odicts h' = h_odicts h
    ∧ h_tracks h' = h_tracks h.
Proof.
  intros HL HR HoR HpL HpR.
  exists (set_dicts <[f_properties fL := pR ∪ pL]> (copied fL h)), (new_frame h).
  assert (Hnew : h_frames (copied fL h) !! new_frame h = Some fL)
    by apply copied_frames_new.
  assert (HR1 : h_frames (copied fL h) !! R = Some fR) by by eapply copied_frames_old.
  assert (HoR1 : h_odicts (copied fL h) !! f_tracks fR = Some []) by done.
  assert (HpL1 : h_dicts (copied fL h) !! f_properties fL = Some pL) by done.
  assert (HpR1 : h_dicts (copied fL h) !! f_properties fR = Some pR) by done.
  split; [|repeat split].
  - unfold __add__. run_with (copy_run _ _ _ HL). simpl.
    run_with (mret_run (copied fL h) R). run_with (tracks_run _ _ _ HR1).
    run_with (for_values_nil _ _ (λ track, add_track (new_frame h) track) HoR1).
    run_with (properties_run _ _ _ Hnew). run_with (properties_run _ _ _ HR1).
    by run_with (dict_update_run _ _ _ _ _ HpL1 HpR1).
  - done.
  - simpl. apply lookup_insert_eq.
  - intros k v Ek. by apply lookup_union_Some_l.
  - intros k Ek. by apply lookup_union_r.
Qed.

Lemma add_empty_frame_merges_properties_witness :
  ∃ h' result,
    __add__ 1 (Frame_ 1) shared_store = (h', Return (AFrame result))
    ∧ h_dicts h' !! 1 = Some ({[ "width" := SInt 40 ]} ∪ {[ "width" := SInt 40 ]})
    ∧ h_odicts h' = h_odicts shared_store.
Proof.
  destruct (add_empty_frame_merges_properties shared_store 1 1
              (mkFrame 1 1 None) (mkFrame 1 1 None)
              {[ "width" := SInt 40 ]} {[ "width" := SInt 40 ]})
    as (h' & result & E & _ & Ed & _ & _ & Eo & _); [reflexivity..|].
  exists h', result. repeat split; assumption.
Defined.

(** * Frame + Frame on a shared track mapping *)


